(** * A private, hash-linked star registry

    Shallow embedding of [src/blockchain.js] (class [Blockchain]). The class
    [Block] of [src/block.js] is not among the sources at hand: what the
    ledger uses of it (the constructor, [validate], [getBData]) is modelled
    from the specification and from the test suite.

    Conventions of the embedding

    - JavaScript numbers that the program only ever uses as integers are
      exact [Z]; [NaN] is [None] in an [option Z].
    - [null] / [undefined] for a field that otherwise holds a string is
      [None] in an [option string]; [===] on such fields is [strict_eq].
    - Strings are [string] (sequences of 8-bit character codes).
    - Block objects live in a heap and are handled by reference, as in
      JavaScript: [_addBlock] mutates the object it is given and pushes the
      reference, so a block that is appended twice is one shared object.
    - A promise is represented by the way it settles: [Resolved], [Rejected]
      or [Pending] (it never settles: an exception escaping an [async]
      executor).
    - Every ledger operation runs to completion before the next one starts
      (one operation in flight at a time). *)

From Stdlib Require Import ZArith String Ascii List DecimalString DecimalPos
  QArith Bool Sorted Lia.
Import ListNotations.

Local Open Scope string_scope.
Local Open Scope Z_scope.

(** ** JavaScript primitives used by the program *)

Module JS.

(** [Number.prototype.toString()] on an integer. *)
Definition toString (z : Z) : string := NilZero.string_of_int (Z.to_int z).

(** [s.slice(0, -3)]: everything but the last three characters. *)
Definition slice_0_m3 (s : string) : string :=
  substring 0 (String.length s - 3) s.

(** [s.split(sep)] for a one-character separator: [cur] holds the
    characters of the field being read. *)
Fixpoint split_from (sep : ascii) (s : string) (cur : string) : list string :=
  match s with
  | EmptyString => [cur]
  | String c s' =>
      if Ascii.eqb c sep then cur :: split_from sep s' EmptyString
      else split_from sep s' (cur ++ String c EmptyString)
  end.

Definition split (sep : ascii) (s : string) : list string :=
  split_from sep s EmptyString.

(** White space skipped by [parseInt]: of the characters a string of the
    embedding can hold (codes 0 to 255) these are TAB, LF, VT, FF, CR (9 to
    13), SP (32) and the no-break space U+00A0 (160). *)
Definition is_white_space (c : ascii) : bool :=
  let n := Z.of_N (N_of_ascii c) in
  (n =? 32) || ((9 <=? n) && (n <=? 13)) || (n =? 160).

Fixpoint trim_start (s : string) : string :=
  match s with
  | String c s' => if is_white_space c then trim_start s' else s
  | EmptyString => s
  end.

(** Value of a character as a digit: 0-9, then a-z / A-Z for 10-35. *)
Definition digit_value (c : ascii) : option Z :=
  let n := Z.of_N (N_of_ascii c) in
  if (48 <=? n) && (n <=? 57) then Some (n - 48)
  else if (97 <=? n) && (n <=? 122) then Some (n - 87)
  else if (65 <=? n) && (n <=? 90) then Some (n - 55)
  else None.

(** The longest prefix of [s] made of digits of [radix], as a number;
    [acc] is [None] until a first digit has been read. *)
Fixpoint parse_digits (radix : Z) (s : string) (acc : option Z) : option Z :=
  match s with
  | EmptyString => acc
  | String c s' =>
      match digit_value c with
      | Some d =>
          if d <? radix
          then parse_digits radix s'
                 (Some (radix * match acc with Some a => a | None => 0 end + d))
          else acc
      | None => acc
      end
  end.

(** [parseInt(s)] with no radix argument; [None] is [NaN]. *)
Definition parseInt (s : string) : option Z :=
  let s := trim_start s in
  let '(sign, s) :=
    match s with
    | String "-" s' => (-1, s')
    | String "+" s' => (1, s')
    | _ => (1, s)
    end in
  let '(radix, s) :=
    match s with
    | String "0" (String "x" s') => (16, s')
    | String "0" (String "X" s') => (16, s')
    | _ => (10, s)
    end in
  match parse_digits radix s None with
  | Some n => Some (sign * n)
  | None => None
  end.

(** [parseInt(v)] where [v] may be [undefined] (an array index out of
    range): the text "undefined" has no digits. *)
Definition parseInt_opt (v : option string) : option Z :=
  match v with
  | Some s => parseInt s
  | None => None
  end.

(** [a === b] on values that are a string or [null]. *)
Definition strict_eq (a b : option string) : bool :=
  match a, b with
  | Some x, Some y => String.eqb x y
  | None, None => true
  | _, _ => false
  end.

End JS.

(** ** Payload encoding

    The payload codec belongs to [src/block.js] and to the [hex2ascii]
    package, neither of which is among the sources at hand. *)

Module Hex.

Definition hexdigit (n : N) : ascii :=
  if (n <? 10)%N then ascii_of_N (48 + n) else ascii_of_N (87 + n).

Definition nibble (c : ascii) : option N :=
  match JS.digit_value c with
  | Some d => if d <? 16 then Some (Z.to_N d) else None
  | None => None
  end.

(** Modelled from the spec: the payload encoder of [src/block.js]
    ([Buffer.from(s).toString('hex')]), "a reversible text encoding
    (hex-of-ASCII in the source system)". *)
Fixpoint ascii2hex (s : string) : string :=
  match s with
  | EmptyString => EmptyString
  | String c s' =>
      let n := N_of_ascii c in
      String (hexdigit (n / 16)) (String (hexdigit (n mod 16)) (ascii2hex s'))
  end.

(** Modelled from the spec: the payload decoder [hex2ascii(h)], the inverse
    of the encoder: two hex digits give one character. *)
Fixpoint hex2ascii (h : string) : string :=
  match h with
  | String a (String b h') =>
      match nibble a, nibble b with
      | Some x, Some y => String (ascii_of_N (16 * x + y)) (hex2ascii h')
      | _, _ => hex2ascii h'
      end
  | _ => EmptyString
  end.

End Hex.

(** ** Blocks *)

Module Block.

(** The fields of a [Block] object. *)
Record t : Type := mk {
  hash : option string;
  height : Z;
  body : string;
  time : string;
  previousBlockHash : option string;
  owner : option string
}.

Definition set_hash (v : option string) (b : t) : t :=
  mk v (height b) (body b) (time b) (previousBlockHash b) (owner b).
Definition set_height (v : Z) (b : t) : t :=
  mk (hash b) v (body b) (time b) (previousBlockHash b) (owner b).
Definition set_body (v : string) (b : t) : t :=
  mk (hash b) (height b) v (time b) (previousBlockHash b) (owner b).
Definition set_time (v : string) (b : t) : t :=
  mk (hash b) (height b) (body b) v (previousBlockHash b) (owner b).
Definition set_previousBlockHash (v : option string) (b : t) : t :=
  mk (hash b) (height b) (body b) (time b) v (owner b).
Definition set_owner (v : option string) (b : t) : t :=
  mk (hash b) (height b) (body b) (time b) (previousBlockHash b) v.

End Block.

(** The result of a call that may throw. *)
Inductive Completion (A : Type) : Type :=
| Normal (a : A)
| Throw.
Arguments Normal {A} a.
Arguments Throw {A}.

(** What the program takes from its environment: the libraries it requires
    and the system clock. *)
Class Externals : Type := {
  (** the type of the [star] argument of [submitStar] *)
  Star : Type;
  (** the string ['Genesis Block'] as a star value *)
  GenesisStar : Star;
  (** crypto-js: [SHA256(text).toString()] *)
  SHA256 : string -> string;
  (** [JSON.stringify(block)] *)
  JSON_stringify : Block.t -> string;
  (** [JSON.stringify({star: s, owner: o})] *)
  JSON_stringify_data : Star -> option string -> string;
  (** bitcoinjs-message: [verify(message, address, signature)] *)
  bitcoinMessage_verify : string -> string -> string -> Completion bool;
  (** the value of the n-th call of [new Date().getTime()], in milliseconds *)
  Date_getTime : nat -> Z
}.

(** The messages of the errors the program raises. *)
Inductive Error : Type := MkError (message : string).

(** How a promise settles. *)
Inductive Promise (A : Type) : Type :=
| Resolved (a : A)
| Rejected (e : Error)
| Pending.
Arguments Resolved {A} a.
Arguments Rejected {A} e.
Arguments Pending {A}.

(** References to block objects, and the values a caller can pass. *)
Definition ref : Type := nat.

Inductive Value : Type :=
| VUndefined
| VString (s : string)
| VBlock (r : ref).

(** The fields of the [Blockchain] object. *)
Record Blockchain : Type := mkBlockchain {
  chain : list ref;
  height : Z
}.

(** The state operations run in: the block objects, the allocation pointer,
    the ledger, and the number of clock readings so far. *)
Record World : Type := mkWorld {
  heap : ref -> Block.t;
  nextRef : ref;
  this : Blockchain;
  clock : nat
}.

(** A state monad over [World]. *)
Definition M (A : Type) : Type := World -> A * World.

Definition ret {A} (a : A) : M A := fun w => (a, w).

Definition bind {A B} (c : M A) (k : A -> M B) : M B :=
  fun w => let (a, w') := c w in k a w'.

Notation "x <- c ;; k" := (bind c (fun x => k))
  (at level 61, c at next level, right associativity).
Notation "c ;;; k" := (bind c (fun _ => k))
  (at level 61, right associativity).

Definition run {A} (c : M A) (w : World) : A * World := c w.
Definition result {A} (c : M A) (w : World) : A := fst (c w).
Definition exec {A} (c : M A) (w : World) : World := snd (c w).

(** Reading the state without changing it. *)
Definition reading {A} (f : World -> A) : M A := fun w => (f w, w).

Definition update (r : ref) (b : Block.t) (h : ref -> Block.t) : ref -> Block.t :=
  fun r' => if Nat.eqb r' r then b else h r'.

(** [block.field = v] *)
Definition modify (r : ref) (f : Block.t -> Block.t) : M unit :=
  fun w => (tt, mkWorld (update r (f (heap w r)) (heap w)) (nextRef w) (this w) (clock w)).

Definition load (r : ref) : M Block.t := reading (fun w => heap w r).

(** The blocks of the chain, in order. *)
Definition blocks (w : World) : list Block.t := map (heap w) (chain (this w)).

(** ** The operations of [Block] and [Blockchain] *)

Section Operations.

Context {E : Externals}.

(** [new Date().getTime()] *)
Definition getTime : M Z :=
  fun w => (Date_getTime (clock w),
            mkWorld (heap w) (nextRef w) (this w) (S (clock w))).

(** [new Date().getTime().toString().slice(0, -3)] *)
Definition now_seconds : M string :=
  ms <- getTime ;;
  ret (JS.slice_0_m3 (JS.toString ms)).

(** Modelled from the spec: the constructor of [Block] in [src/block.js]:
    a block with no hash, height 0, no back-link, and as payload the encoded
    text of [data]. *)
Definition Block_new (star : Star) (owner : option string) : M ref :=
  fun w =>
    let r := nextRef w in
    let b := Block.mk None 0 (Hex.ascii2hex (JSON_stringify_data star owner))
                      "0" None None in
    (r, mkWorld (update r b (heap w)) (S r) (this w) (clock w)).

(** Modelled from the spec: [Block.validate()] of [src/block.js]: "recomputes
    compute_hash() against the stored selfHash", the hash being taken "with
    the hash field cleared"; [validateBlock] in [src/blockchain.js] does the
    same with [block.hash = null]. *)
Definition validate (b : Block.t) : bool :=
  JS.strict_eq (Block.hash b)
               (Some (SHA256 (JSON_stringify (Block.set_hash None b)))).

(** Modelled from the spec: [Block.getBData()] of [src/block.js]
    (decode_payload): fails on the genesis block, otherwise gives the decoded
    payload. *)
Definition getBData (b : Block.t) : Promise string :=
  if Block.height b =? 0
  then Rejected (MkError "Can not return data for Genesis Block")
  else Resolved (Hex.hex2ascii (Block.body b)).

(** One turn of the loop of [validateChain], at index [i]; [None] stands for
    an exception (a method call or field read on [undefined]). *)
Definition validateChain_body (w : World) (acc : option (list nat)) (i : nat)
  : option (list nat) :=
  match acc with
  | None => None
  | Some errorLog =>
      match nth_error (chain (this w)) i, nth_error (chain (this w)) (i + 1) with
      | Some r, Some r' =>
          let valid := validate (heap w r) in
          let errorLog := if negb valid then (errorLog ++ [i])%list else errorLog in
          let blockHash := Block.hash (heap w r) in
          let previousHash := Block.previousBlockHash (heap w r') in
          let errorLog :=
            if negb (JS.strict_eq blockHash previousHash)
            then (errorLog ++ [i])%list else errorLog in
          Some errorLog
      | _, _ => None
      end
  end.

(** [for (var i = 0; i < self.chain.length - 1; i++)] *)
Definition validateChain_loop (w : World) : option (list nat) :=
  fold_left (validateChain_body w)
            (seq 0 (length (chain (this w)) - 1)) (Some []).

(** [validateChain()] *)
Definition validateChain : M (Promise (list nat)) :=
  reading (fun w =>
    match validateChain_loop w with
    | Some errorLog => Resolved errorLog
    | None => Pending
    end).

(** [self.chain.push(block)]: the new length. *)
Definition push (r : ref) : M Z :=
  fun w =>
    let chain' := (chain (this w) ++ [r])%list in
    (Z.of_nat (length chain'),
     mkWorld (heap w) (nextRef w) (mkBlockchain chain' (height (this w))) (clock w)).

(** [self.chain[i]] *)
Definition chain_at (i : Z) : M Value :=
  reading (fun w =>
    if i <? 0 then VUndefined
    else match nth_error (chain (this w)) (Z.to_nat i) with
         | Some r => VBlock r
         | None => VUndefined
         end).

(** [self.chain.length] *)
Definition chain_length : M Z :=
  reading (fun w => Z.of_nat (length (chain (this w)))).

(** [_addBlock(block)]. An exception inside the [async] executor leaves the
    promise pending. *)
Definition _addBlock (block : Value) : M (Promise Value) :=
  match block with
  | VBlock b =>
      t <- now_seconds ;;
      modify b (Block.set_time t) ;;;
      len <- chain_length ;;
      linked <-
        (if 0 <? len then
           tail <- chain_at (len - 1) ;;
           match tail with
           | VBlock last =>
               h <- reading (fun w => Block.hash (heap w last)) ;;
               modify b (Block.set_previousBlockHash h) ;;;
               len <- chain_length ;;
               modify b (Block.set_height len) ;;;
               ret true
           | _ => ret false
           end
         else ret true) ;;
      if negb linked then ret Pending else
      t <- now_seconds ;;
      modify b (Block.set_time t) ;;;
      blk <- load b ;;
      modify b (Block.set_hash (Some (SHA256 (JSON_stringify blk)))) ;;;
      blockIndex <- push b ;;
      if negb (blockIndex =? 0) then
        errorLog <- validateChain ;;
        match errorLog with
        | Resolved errorLog =>
            if (0 <? length errorLog)%nat
            then ret (Rejected (MkError "Blockchain validation failed "))
            else v <- chain_at (blockIndex - 1) ;; ret (Resolved v)
        | _ => ret Pending
        end
      else ret (Rejected (MkError "Exception while adding block to the chain"))
  | _ => ret (Rejected (MkError "Can add only objects of type Block"))
  end.

(** [initializeChain()] *)
Definition initializeChain : M unit :=
  h <- reading (fun w => height (this w)) ;;
  if h =? -1 then
    block <- Block_new GenesisStar None ;;
    modify block (Block.set_height 0) ;;;
    _addBlock (VBlock block) ;;;
    ret tt
  else ret tt.

(** [new Blockchain()] *)
Definition constructor : M unit :=
  (fun w => (tt, mkWorld (heap w) (nextRef w) (mkBlockchain [] (-1)) (clock w))) ;;;
  initializeChain.

(** [getChainHeight()] *)
Definition getChainHeight : M (Promise Z) :=
  reading (fun w => Resolved (height (this w))).

(** [((currentTime - messageTime) / 60) > 5]; a comparison with [NaN] is
    false. *)
Definition more_than_5_minutes (currentTime messageTime : option Z) : bool :=
  match currentTime, messageTime with
  | Some c, Some m => negb (Qle_bool (inject_Z (c - m) / inject_Z 60) (inject_Z 5))
  | _, _ => false
  end.

(** [submitStar(address, message, signature, star)]. [resolve(p)] with a
    promise [p] settles the way [p] does. *)
Definition submitStar (address message signature : string) (star : Star)
  : M (Promise Value) :=
  let messageTime := JS.parseInt_opt (nth_error (JS.split ":" message) 1) in
  now <- now_seconds ;;
  let currentTime := JS.parseInt now in
  if more_than_5_minutes currentTime messageTime then
    ret (Rejected (MkError "More than 5 mins elapsed since the signing of the message"))
  else
    match bitcoinMessage_verify message address signature with
    | Throw => ret (Rejected (MkError "Error while adding the block to chain"))
    | Normal false => ret (Rejected (MkError "Not able to verify the message"))
    | Normal true =>
        block <- Block_new star (Some address) ;;
        modify block (Block.set_owner (Some address)) ;;;
        _addBlock (VBlock block)
    end.

(** [getStarsByWalletAddress(address)]; [None] is [null]. *)
Definition getStarsByWalletAddress (address : string)
  : M (Promise (option (list string))) :=
  reading (fun w =>
    let blocks :=
      filter (fun p => JS.strict_eq (Block.owner (heap w p)) (Some address))
             (chain (this w)) in
    let ownedBlocks :=
      fold_left (fun ownedBlocks block =>
                   (ownedBlocks ++ [Hex.hex2ascii (Block.body (heap w block))])%list)
                blocks [] in
    if (0 <? length ownedBlocks)%nat
    then Resolved (Some ownedBlocks)
    else Resolved None).

End Operations.

(** ** The specification's reading of [validate_chain]

    Written from the words of the specification, to be compared with
    [validateChain] above: for each index [i] from 0 to length-2, record [i]
    if the block does not validate, and record [i] (again) if its hash is not
    the next block's back-link. *)

Section Specification.

Context {E : Externals}.

Definition errors_at (w : World) (i : nat) : list nat :=
  match nth_error (blocks w) i, nth_error (blocks w) (i + 1) with
  | Some b, Some b' =>
      ((if validate b then [] else [i]) ++
       (if JS.strict_eq (Block.hash b) (Block.previousBlockHash b')
        then [] else [i]))%list
  | _, _ => []
  end.

Definition validate_chain_spec (w : World) : list nat :=
  flat_map (errors_at w) (seq 0 (length (blocks w) - 1)).

(** The number of violations the specification counts at index [i]. *)
Definition violations (w : World) (i : nat) : nat :=
  match nth_error (blocks w) i, nth_error (blocks w) (i + 1) with
  | Some b, Some b' =>
      ((if validate b then 0 else 1) +
       (if JS.strict_eq (Block.hash b) (Block.previousBlockHash b')
        then 0 else 1))%nat
  | _, _ => 0%nat
  end.

(** [w1] is [w] after block [b] has been stamped and pushed: the chain has
    grown by [b], the counter [height] and every other object are as they
    were, and [b] keeps its payload and owner. *)
Record appended_to (b : ref) (w w1 : World) : Prop := {
  app_chain : chain (this w1) = (chain (this w) ++ [b])%list;
  app_height : height (this w1) = height (this w);
  app_nextRef : nextRef w1 = nextRef w;
  app_frame : forall r, r <> b -> heap w1 r = heap w r;
  app_body : Block.body (heap w1 b) = Block.body (heap w b);
  app_owner : Block.owner (heap w1 b) = Block.owner (heap w b)
}.

(** The world in which [initializeChain] calls [_addBlock]: the genesis
    candidate has been created and given height 0. *)
Definition genesis_candidate (w : World) : World :=
  exec (block <- Block_new GenesisStar None ;;
        modify block (Block.set_height 0)) w.

(** The world in which [submitStar] calls [_addBlock]: the clock has been
    read, and the block for the claim created and given its owner. *)
Definition claim_candidate (address : string) (star : Star) (w : World) : World :=
  exec (now_seconds ;;;
        block <- Block_new star (Some address) ;;
        modify block (Block.set_owner (Some address))) w.

(** The payload the [Block] constructor gives a block. *)
Definition payload (star : Star) (owner : option string) : string :=
  Hex.ascii2hex (JSON_stringify_data star owner).

End Specification.

(** ** A concrete environment

    Stand-ins for the libraries, used to run the program on explicit inputs:
    a collision-free digest, a serialisation that lists every field, a
    signature scheme in which the signature of [m] by [a] is the text
    ["signed:a:m"] (and an empty signature makes [verify] throw), and a clock
    that advances by one millisecond per reading. *)

Module Sample.

Definition opt_text (o : option string) : string :=
  match o with
  | Some s => "'" ++ s ++ "'"
  | None => "null"
  end.

Definition stringify (b : Block.t) : string :=
  "{hash:" ++ opt_text (Block.hash b)
  ++ ",height:" ++ JS.toString (Block.height b)
  ++ ",body:" ++ Block.body b
  ++ ",time:" ++ Block.time b
  ++ ",previousBlockHash:" ++ opt_text (Block.previousBlockHash b)
  ++ ",owner:" ++ opt_text (Block.owner b) ++ "}".

Definition externals : Externals := {|
  Star := string;
  GenesisStar := "Genesis Block";
  SHA256 := fun text => "#" ++ text;
  JSON_stringify := stringify;
  JSON_stringify_data := fun star owner =>
    "{star:" ++ star ++ ",owner:" ++ opt_text owner ++ "}";
  bitcoinMessage_verify := fun message address signature =>
    if String.eqb signature "" then Throw
    else Normal (String.eqb signature ("signed:" ++ address ++ ":" ++ message));
  Date_getTime := fun n => 1612847403000 + Z.of_nat n
|}.

#[local] Existing Instance externals.

(** Star values. *)
Definition first_block : @Star externals := "First Block".
Definition second_block : @Star externals := "Second Block".
Definition third_block : @Star externals := "Third Block".
Definition sirius : @Star externals := "Sirius".

(** Before [new Blockchain()]: no object allocated yet. *)
Definition nothing : World :=
  mkWorld (fun _ => Block.mk None 0 "" "0" None None) 0%nat
          (mkBlockchain [] 0) 0%nat.

(** After [new Blockchain()]. *)
Definition fresh : World := exec constructor nothing.

(** After [_addBlock(new Block({star: 'First Block', owner: null}))]. *)
Definition one_added : World :=
  exec (block <- Block_new first_block None ;;
        _addBlock (VBlock block))
       fresh.

(** The same chain after the payload of its last block has been altered. *)
Definition last_tampered : World :=
  exec (modify 1%nat (Block.set_body "00")) one_added.

(** A caller sets [block.hash] before handing the block to [_addBlock]: the
    digest then covers that value, and the block will not validate. *)
Definition prehashed_added : World :=
  exec (block <- Block_new second_block None ;;
        modify block (Block.set_hash (Some "stale")) ;;;
        _addBlock (VBlock block))
       fresh.

(** A block a caller has created but not yet appended. *)
Definition with_candidate : World :=
  exec (Block_new third_block None) prehashed_added.

(** A challenge three seconds old, one 403 seconds old, and one whose time
    field is not a number, each with its signature by ["addr"]. *)
Definition recent : string := "addr:1612847400:starRegistry".
Definition stale : string := "addr:1612847000:starRegistry".
Definition signed (message : string) : string := "signed:addr:" ++ message.

End Sample.

(** ** The rest of [Blockchain] *)

Section Queries.

Context {E : Externals}.

(** [requestMessageOwnershipVerification(address)] *)
Definition requestMessageOwnershipVerification (address : string)
  : M (Promise string) :=
  t <- now_seconds ;;
  ret (Resolved ((address ++ ":") ++ (t ++ ":starRegistry"))).

(** [getBlockByHash(hash)]; [None] is [null]. *)
Definition getBlockByHash (hash : option string) : M (Promise (option ref)) :=
  reading (fun w =>
    let block :=
      nth_error
        (filter (fun p => JS.strict_eq (Block.hash (heap w p)) hash)
                (chain (this w))) 0 in
    match block with
    | Some block => Resolved (Some block)
    | None => Resolved None
    end).

(** [getBlockByHeight(height)]; [None] is [null]. *)
Definition getBlockByHeight (height : Z) : M (Promise (option ref)) :=
  reading (fun w =>
    let block :=
      nth_error
        (filter (fun p => Block.height (heap w p) =? height) (chain (this w)))
        0 in
    match block with
    | Some block => Resolved (Some block)
    | None => Resolved None
    end).

(** The error of reading [block.hash] when [block] is [null]; the text is
    the engine's. *)
Definition TypeError_hash_of_null : Error :=
  MkError "Cannot read property 'hash' of null".

(** [validateBlock(blockHeight)] from the point where the awaited
    [getBlockByHeight] has settled with [found]. An exception in an [async]
    function rejects its promise. *)
Definition validateBlock_resume (found : Promise (option ref))
  : M (Promise bool) :=
  match found with
  | Resolved (Some block) =>
      blockHash <- reading (fun w => Block.hash (heap w block)) ;;
      modify block (Block.set_hash None) ;;;
      blk <- load block ;;
      let validBlockHash := SHA256 (JSON_stringify blk) in
      modify block (Block.set_hash blockHash) ;;;
      h <- reading (fun w => Block.hash (heap w block)) ;;
      if JS.strict_eq h (Some validBlockHash)
      then ret (Resolved true)
      else ret (Resolved false)
  | Resolved None => ret (Rejected TypeError_hash_of_null)
  | Rejected e => ret (Rejected e)
  | Pending => ret Pending
  end.

(** [validateBlock(blockHeight)] *)
Definition validateBlock (blockHeight : Z) : M (Promise bool) :=
  found <- getBlockByHeight blockHeight ;;
  validateBlock_resume found.

(** A promise is an object, and an object is truthy. *)
Definition truthy {A} (p : M (Promise A)) : bool := true.

(** One turn of the loop of [validateChainOld], at index [i]. The call
    [self.validateBlock(i)] is not awaited: the test is on the promise. *)
Definition validateChainOld_body (w : World) (acc : option (list nat)) (i : nat)
  : option (list nat) :=
  match acc with
  | None => None
  | Some errorLog =>
      let errorLog :=
        if negb (truthy (validateBlock (Z.of_nat i)))
        then (errorLog ++ [i])%list else errorLog in
      match nth_error (chain (this w)) i, nth_error (chain (this w)) (i + 1) with
      | Some r, Some r' =>
          let blockHash := Block.hash (heap w r) in
          let previousHash := Block.previousBlockHash (heap w r') in
          let errorLog :=
            if negb (JS.strict_eq blockHash previousHash)
            then (errorLog ++ [i])%list else errorLog in
          Some errorLog
      | _, _ => None
      end
  end.

(** [validateChainOld()]. The loop runs without suspending; each call of
    [validateBlock] has by then run up to its [await], so it has looked up
    its block, and the calls resume, in order, once the loop is over. *)
Definition validateChainOld : M (Promise (list nat)) :=
  fun w =>
    let indices := seq 0 (length (chain (this w)) - 1) in
    let started :=
      map (fun i => result (getBlockByHeight (Z.of_nat i)) w) indices in
    let errorLog := fold_left (validateChainOld_body w) indices (Some []) in
    (match errorLog with
     | Some errorLog => Resolved errorLog
     | None => Pending
     end,
     fold_left (fun w' found => exec (validateBlock_resume found) w') started w).

End Queries.

(** ** Chains in good order *)

Section GoodOrder.

Context {E : Externals}.

(** The blocks carry the heights [i], [i+1], ... *)
Fixpoint heights_from (i : Z) (bs : list Block.t) : bool :=
  match bs with
  | [] => true
  | b :: bs' => (Block.height b =? i) && heights_from (i + 1) bs'
  end.

(** Every block's back-link is the hash of the block before it. *)
Fixpoint linked (bs : list Block.t) : bool :=
  match bs with
  | b :: bs' =>
      match bs' with
      | b' :: _ => JS.strict_eq (Block.hash b) (Block.previousBlockHash b')
      | [] => true
      end && linked bs'
  | [] => true
  end.

(** No object occurs twice. *)
Fixpoint distinct (l : list ref) : bool :=
  match l with
  | [] => true
  | r :: l' => negb (existsb (Nat.eqb r) l') && distinct l'
  end.

(** A chain in good order: it is not empty, its blocks are distinct objects,
    each validates, block [i] has height [i], and the blocks are linked. *)
Definition sound (w : World) : bool :=
  negb (length (chain (this w)) =? 0)%nat
  && distinct (chain (this w))
  && forallb validate (blocks w)
  && heights_from 0 (blocks w)
  && linked (blocks w).

(** Every block of the chain is an object that has been allocated. *)
Definition allocated (w : World) : bool :=
  forallb (fun r => r <? nextRef w)%nat (chain (this w)).

(** The link from block [i] to block [i+1] is broken. *)
Definition link_broken (w : World) (i : nat) : bool :=
  match nth_error (blocks w) i, nth_error (blocks w) (i + 1) with
  | Some b, Some b' =>
      negb (JS.strict_eq (Block.hash b) (Block.previousBlockHash b'))
  | _, _ => false
  end.

(** Two states with the same ledger and the same block objects. *)
Definition same_state (w w' : World) : Prop :=
  this w' = this w /\ nextRef w' = nextRef w /\ clock w' = clock w
  /\ forall r, heap w' r = heap w r.

End GoodOrder.

(** ** Decimal texts *)

(** A character is a decimal digit. *)
Definition is_decimal (c : ascii) : bool :=
  match JS.digit_value c with
  | Some d => d <? 10
  | None => false
  end.

Fixpoint all_decimal (s : string) : bool :=
  match s with
  | EmptyString => true
  | String c s' => is_decimal c && all_decimal s'
  end.

(** The number a text of decimal digits denotes, read after the digits of
    [acc]. *)
Fixpoint decimal_value (s : string) (acc : Z) : Z :=
  match s with
  | EmptyString => acc
  | String c s' =>
      decimal_value s'
        (10 * acc + match JS.digit_value c with Some d => d | None => 0 end)
  end.

Fixpoint uint_value (d : Decimal.uint) (acc : Z) : Z :=
  match d with
  | Decimal.Nil => acc
  | Decimal.D0 d => uint_value d (10 * acc)
  | Decimal.D1 d => uint_value d (10 * acc + 1)
  | Decimal.D2 d => uint_value d (10 * acc + 2)
  | Decimal.D3 d => uint_value d (10 * acc + 3)
  | Decimal.D4 d => uint_value d (10 * acc + 4)
  | Decimal.D5 d => uint_value d (10 * acc + 5)
  | Decimal.D6 d => uint_value d (10 * acc + 6)
  | Decimal.D7 d => uint_value d (10 * acc + 7)
  | Decimal.D8 d => uint_value d (10 * acc + 8)
  | Decimal.D9 d => uint_value d (10 * acc + 9)
  end.

(** The character [c] occurs in [s]. *)
Fixpoint has_char (c : ascii) (s : string) : bool :=
  match s with
  | EmptyString => false
  | String a s' => Ascii.eqb a c || has_char c s'
  end.

(** ** More explicit inputs *)

Module Later.

#[local] Existing Instance Sample.externals.



(** [Sample.fresh] with a block a caller has created and not yet appended. *)
Definition with_new_block : World :=
  exec (Block_new Sample.first_block None) Sample.fresh.

End Later.

(** * Properties *)

(** ** JavaScript primitives and the payload codec *)

Lemma strict_eq_refl (a : option string) : JS.strict_eq a a = true.
Proof. destruct a as [x|]; cbn; [apply String.eqb_refl | reflexivity]. Qed.

Lemma strict_eq_true (a b : option string) : JS.strict_eq a b = true <-> a = b.
Proof.
  destruct a as [x|], b as [y|]; cbn; split; intros H;
    try reflexivity; try discriminate.
  - apply String.eqb_eq in H. now subst.
  - injection H as ->. apply String.eqb_refl.
Qed.

(** The test of the source on elapsed minutes is a test on seconds. *)
Lemma more_than_5_minutes_seconds (c m : Z) :
  more_than_5_minutes (Some c) (Some m) = (300 <? c - m).
Proof.
  unfold more_than_5_minutes, Qle_bool. cbn.
  destruct (Z.leb_spec ((c - m) * 1 * 1) 300), (Z.ltb_spec 300 (c - m));
    cbn; try reflexivity; lia.
Qed.


Lemma hex2ascii_char (c : ascii) (h : string) :
  Hex.hex2ascii
    (String (Hex.hexdigit (N_of_ascii c / 16))
            (String (Hex.hexdigit (N_of_ascii c mod 16)) h))
  = String c (Hex.hex2ascii h).
Proof.
  destruct c as [[] [] [] [] [] [] [] []]; reflexivity.
Qed.

(** Decoding an encoded text gives the text back. *)
Lemma hex2ascii_ascii2hex (text : string) :
  Hex.hex2ascii (Hex.ascii2hex text) = text.
Proof.
  induction text as [|c text IH].
  - reflexivity.
  - cbn [Hex.ascii2hex]. rewrite hex2ascii_char. now rewrite IH.
Qed.

(** ** Lists of indices *)

Lemma index_last {A} (c : list A) (x : A) (f : A -> Value) :
  (if Z.of_nat (length (c ++ [x])) - 1 <? 0 then VUndefined
   else match nth_error (c ++ [x])
                (Z.to_nat (Z.of_nat (length (c ++ [x])) - 1)) with
        | Some r => f r
        | None => VUndefined
        end) = f x.
Proof.
  rewrite length_app. cbn [length].
  replace (Z.of_nat (length c + 1) - 1) with (Z.of_nat (length c)) by lia.
  destruct (Z.ltb_spec (Z.of_nat (length c)) 0) as [H|_]; [lia|].
  rewrite Nat2Z.id, nth_error_app2 by lia.
  now rewrite Nat.sub_diag.
Qed.

Lemma index_tail {A} (l : list A) (f : A -> Value) :
  0 < Z.of_nat (length l) ->
  exists x,
    (if Z.of_nat (length l) - 1 <? 0 then VUndefined
     else match nth_error l (Z.to_nat (Z.of_nat (length l) - 1)) with
          | Some r => f r
          | None => VUndefined
          end) = f x.
Proof.
  intros Hlen. destruct (exists_last (l := l)) as (c & x & ->).
  - intros ->. cbn in Hlen. lia.
  - exists x. apply index_last.
Qed.

Lemma push_loop_map {A B} (f : A -> B) (l : list A) (acc : list B) :
  fold_left (fun out x => (out ++ [f x])%list) l acc = (acc ++ map f l)%list.
Proof.
  revert acc. induction l as [|x l IH]; intros acc; cbn.
  - now rewrite app_nil_r.
  - rewrite IH, <- app_assoc. reflexivity.
Qed.

Lemma count_occ_repeat_seq (k : nat -> nat) (i : nat) : forall n a,
  count_occ Nat.eq_dec (flat_map (fun j => repeat j (k j)) (seq a n)) i
  = if ((a <=? i) && (i <? a + n))%nat then k i else 0%nat.
Proof.
  induction n as [|n IH]; intros a.
  - cbn [seq flat_map count_occ].
    destruct (Nat.leb_spec a i), (Nat.ltb_spec i (a + 0)); cbn; try reflexivity; lia.
  - cbn [seq flat_map]. rewrite count_occ_app, IH.
    destruct (Nat.eq_dec a i) as [->|Hne].
    + rewrite count_occ_repeat_eq by reflexivity.
      replace (S i <=? i)%nat with false by (symmetry; apply Nat.leb_gt; lia).
      replace (i <=? i)%nat with true by (symmetry; apply Nat.leb_le; lia).
      replace (i <? i + S n)%nat with true by (symmetry; apply Nat.ltb_lt; lia).
      cbn. lia.
    + rewrite count_occ_repeat_neq by lia.
      destruct (Nat.leb_spec (S a) i), (Nat.leb_spec a i),
               (Nat.ltb_spec i (S a + n)), (Nat.ltb_spec i (a + S n));
        cbn; try reflexivity; lia.
Qed.

Lemma sorted_repeat_app (a k : nat) (l : list nat) :
  StronglySorted le l -> Forall (le a) l ->
  StronglySorted le (repeat a k ++ l).
Proof.
  intros Hs Ha. induction k as [|k IH]; cbn; [assumption|].
  constructor; [assumption|].
  apply Forall_app. split; [|assumption].
  apply Forall_forall. intros x Hx. apply repeat_spec in Hx. lia.
Qed.

Lemma sorted_repeat_seq (k : nat -> nat) : forall n a,
  StronglySorted le (flat_map (fun j => repeat j (k j)) (seq a n))
  /\ Forall (le a) (flat_map (fun j => repeat j (k j)) (seq a n)).
Proof.
  induction n as [|n IH]; intros a; cbn [seq flat_map].
  - split; constructor.
  - destruct (IH (S a)) as [Hs Hf].
    assert (Hf' : Forall (le a) (flat_map (fun j => repeat j (k j)) (seq (S a) n))).
    { eapply Forall_impl; [|exact Hf]. cbn. intros; lia. }
    split.
    + now apply sorted_repeat_app.
    + apply Forall_app. split; [|assumption].
      apply Forall_forall. intros x Hx. apply repeat_spec in Hx. lia.
Qed.

(** ** The ledger *)

Section Ledger.

Context {E : Externals}.

Lemma update_same (r : ref) (b : Block.t) (h : ref -> Block.t) :
  update r b h r = b.
Proof. unfold update. now rewrite Nat.eqb_refl. Qed.

Lemma update_other (r r' : ref) (b : Block.t) (h : ref -> Block.t) :
  r' <> r -> update r b h r' = h r'.
Proof. unfold update. intros H. apply Nat.eqb_neq in H. now rewrite H. Qed.

Lemma run_eq {A} (c : M A) (w w' : World) (x : A) :
  run c w = (x, w') -> result c w = x /\ exec c w = w'.
Proof. unfold run, result, exec. intros ->. split; reflexivity. Qed.

(** *** [validateChain] *)

Lemma validateChain_body_spec (w : World) (errorLog : list nat) (i : nat) :
  (i + 1 < length (chain (this w)))%nat ->
  validateChain_body w (Some errorLog) i = Some (errorLog ++ errors_at w i)%list.
Proof.
  intros Hi. unfold validateChain_body, errors_at, blocks.
  rewrite !nth_error_map.
  destruct (nth_error (chain (this w)) i) as [r|] eqn:Hr.
  2:{ apply nth_error_None in Hr. lia. }
  destruct (nth_error (chain (this w)) (i + 1)) as [r'|] eqn:Hr'.
  2:{ apply nth_error_None in Hr'. lia. }
  cbn. destruct (validate (heap w r)); cbn;
    destruct (JS.strict_eq _ _); cbn;
    rewrite <- ?app_assoc, ?app_nil_r; reflexivity.
Qed.

Lemma validateChain_fold (w : World) : forall l errorLog,
  Forall (fun i => i + 1 < length (chain (this w)))%nat l ->
  fold_left (validateChain_body w) l (Some errorLog)
  = Some (errorLog ++ flat_map (errors_at w) l)%list.
Proof.
  induction l as [|i l IH]; intros errorLog Hl; cbn [fold_left flat_map].
  - now rewrite app_nil_r.
  - inversion Hl; subst. rewrite validateChain_body_spec by assumption.
    rewrite IH by assumption. now rewrite app_assoc.
Qed.

(** The loop never meets an undefined block. *)
Lemma validateChain_loop_spec (w : World) :
  validateChain_loop w = Some (validate_chain_spec w).
Proof.
  unfold validateChain_loop, validate_chain_spec, blocks.
  rewrite validateChain_fold.
  - rewrite length_map. reflexivity.
  - apply Forall_forall. intros i Hi. apply in_seq in Hi. lia.
Qed.

Lemma validateChain_run (w : World) :
  run validateChain w = (Resolved (validate_chain_spec w), w).
Proof.
  unfold run, validateChain, reading. now rewrite validateChain_loop_spec.
Qed.

Lemma errors_at_repeat (w : World) (i : nat) :
  errors_at w i = repeat i (violations w i).
Proof.
  unfold errors_at, violations.
  destruct (nth_error (blocks w) i) as [b|]; [|reflexivity].
  destruct (nth_error (blocks w) (i + 1)) as [b'|]; [|reflexivity].
  destruct (validate b), (JS.strict_eq _ _); reflexivity.
Qed.

Lemma validate_chain_spec_repeat (w : World) :
  validate_chain_spec w
  = flat_map (fun i => repeat i (violations w i)) (seq 0 (length (blocks w) - 1)).
Proof.
  unfold validate_chain_spec. apply flat_map_ext. intros i. apply errors_at_repeat.
Qed.

Lemma violations_out_of_range (w : World) (i : nat) :
  (length (blocks w) <= i + 1)%nat -> violations w i = 0%nat.
Proof.
  intros H. unfold violations.
  destruct (nth_error (blocks w) i); [|reflexivity].
  apply nth_error_None in H. now rewrite H.
Qed.

Lemma validate_chain_spec_count (w : World) (i : nat) :
  count_occ Nat.eq_dec (validate_chain_spec w) i = violations w i.
Proof.
  rewrite validate_chain_spec_repeat, count_occ_repeat_seq.
  destruct (Nat.leb_spec 0 i); [|lia].
  destruct (Nat.ltb_spec i (0 + (length (blocks w) - 1))); cbn; [reflexivity|].
  symmetry. apply violations_out_of_range. lia.
Qed.

(** A chain whose blocks all validate and are linked has no offending
    index. *)
Lemma validateChain_sound_chain (w : World) :
  (forall i b, nth_error (blocks w) i = Some b -> validate b = true) ->
  (forall i b b',
      nth_error (blocks w) i = Some b -> nth_error (blocks w) (i + 1) = Some b' ->
      Block.previousBlockHash b' = Block.hash b) ->
  validate_chain_spec w = [].
Proof.
  intros Hval Hlink.
  assert (H0 : forall i, violations w i = 0%nat).
  { intros i. unfold violations.
    destruct (nth_error (blocks w) i) as [b|] eqn:Hb; [|reflexivity].
    destruct (nth_error (blocks w) (i + 1)) as [b'|] eqn:Hb'; [|reflexivity].
    rewrite (Hval i b Hb), (Hlink i b b' Hb Hb'), strict_eq_refl. reflexivity. }
  destruct (validate_chain_spec w) as [|i l] eqn:Hs; [reflexivity|].
  pose proof (validate_chain_spec_count w i) as Hc.
  rewrite Hs, H0 in Hc. cbn in Hc.
  destruct (Nat.eq_dec i i); [discriminate | contradiction].
Qed.

(** A block that does not validate is reported, unless it is the last. *)
Lemma validateChain_flags_inner_block (w : World) (i : nat) (b : Block.t) :
  (i + 1 < length (blocks w))%nat ->
  nth_error (blocks w) i = Some b ->
  validate b = false ->
  In i (validate_chain_spec w).
Proof.
  intros Hi Hb Hv.
  apply (count_occ_In Nat.eq_dec). rewrite validate_chain_spec_count.
  unfold violations. rewrite Hb.
  destruct (nth_error (blocks w) (i + 1)) as [b'|] eqn:Hb'.
  - rewrite Hv. lia.
  - apply nth_error_None in Hb'. lia.
Qed.

(** The last block is not examined, but for its back-link: two chains that
    differ only in their last block, with the same back-link, get the same
    result. *)
Lemma validateChain_ignores_last_block
    (w w' : World) (bs : list Block.t) (b b' : Block.t) :
  blocks w = (bs ++ [b])%list ->
  blocks w' = (bs ++ [b'])%list ->
  Block.previousBlockHash b' = Block.previousBlockHash b ->
  validate_chain_spec w' = validate_chain_spec w.
Proof.
  intros Hw Hw' Hp. unfold validate_chain_spec.
  rewrite !flat_map_concat_map. f_equal.
  rewrite Hw, Hw', !length_app. cbn [length].
  apply map_ext_in. intros i Hi. apply in_seq in Hi.
  unfold errors_at. rewrite Hw, Hw'.
  rewrite !(nth_error_app1 bs _ (n := i)) by lia.
  destruct (nth_error bs i) as [x|]; [|reflexivity].
  destruct (Nat.eq_dec (i + 1) (length bs)) as [He|Hne].
  - rewrite !nth_error_app2 by lia.
    replace (i + 1 - length bs)%nat with 0%nat by lia. cbn. now rewrite Hp.
  - rewrite !(nth_error_app1 bs _ (n := i + 1)) by lia. reflexivity.
Qed.

(** *** [_addBlock] *)

Ltac settle_append b :=
  replace (Z.of_nat (length (chain (this _) ++ [b])) =? 0) with false
    by (symmetry; apply Z.eqb_neq; rewrite length_app; cbn; lia);
  cbn [negb heap nextRef this clock chain height];
  rewrite validateChain_loop_spec;
  match goal with
  | |- context [validate_chain_spec ?W] =>
      exists W; split;
      [ destruct (0 <? length (validate_chain_spec W))%nat;
        [ reflexivity
        | cbn [heap nextRef this clock chain height];
          rewrite (index_last _ b VBlock); reflexivity ]
      | split; cbn [heap nextRef this clock chain height];
        [ reflexivity | reflexivity | reflexivity
        | intros r Hr; now rewrite !update_other by assumption
        | now rewrite !update_same
        | now rewrite !update_same ] ]
  end.

(** What [_addBlock] does with a block: it always pushes it, and settles by
    the outcome of the validation of the chain so extended. *)
Lemma addBlock_shape (b : ref) (w : World) :
  exists w1,
    run (_addBlock (VBlock b)) w =
      (if (0 <? length (validate_chain_spec w1))%nat
       then Rejected (MkError "Blockchain validation failed ")
       else Resolved (VBlock b), w1)
    /\ appended_to b w w1.
Proof.
  unfold run, _addBlock.
  cbv [bind ret getTime modify chain_length reading chain_at load push
       validateChain now_seconds].
  cbn [heap nextRef this clock chain height].
  destruct (Z.ltb_spec 0 (Z.of_nat (length (chain (this w))))) as [Hlen|Hlen].
  - cbn [heap nextRef this clock chain height].
    destruct (index_tail (chain (this w)) VBlock Hlen) as [x ->].
    cbn [negb heap nextRef this clock chain height].
    settle_append b.
  - cbn [negb heap nextRef this clock chain height].
    settle_append b.
Qed.

Lemma addBlock_height (block : Value) (w : World) :
  height (this (exec (_addBlock block) w)) = height (this w).
Proof.
  destruct block as [|s|b]; try reflexivity.
  destruct (addBlock_shape b w) as (w1 & Hrun & Happ).
  unfold exec. unfold run in Hrun. rewrite Hrun. cbn. apply Happ.
Qed.

(** *** [initializeChain] and the constructor *)

Lemma initializeChain_appends (w : World) :
  height (this w) = -1 ->
  appended_to (nextRef w) (genesis_candidate w) (exec initializeChain w).
Proof.
  intros Hh. unfold initializeChain, exec, bind at 1, reading at 1.
  rewrite Hh. cbn [Z.eqb Pos.eqb Z.opp].
  destruct (addBlock_shape (nextRef w) (genesis_candidate w)) as (w1 & Hrun & Happ).
  unfold run in Hrun.
  unfold genesis_candidate, exec in *.
  cbv [bind Block_new modify ret] in *.
  cbn [heap nextRef this clock chain height fst snd] in *.
  rewrite Hrun. cbn [snd]. exact Happ.
Qed.

Lemma constructor_appends (w : World) :
  appended_to (nextRef w)
    (genesis_candidate (mkWorld (heap w) (nextRef w) (mkBlockchain [] (-1)) (clock w)))
    (exec constructor w).
Proof.
  unfold constructor, exec, bind at 1.
  apply (initializeChain_appends
           (mkWorld (heap w) (nextRef w) (mkBlockchain [] (-1)) (clock w))).
  reflexivity.
Qed.

Lemma genesis_candidate_facts (w : World) :
  this (genesis_candidate w) = this w
  /\ nextRef (genesis_candidate w) = S (nextRef w)
  /\ Block.body (heap (genesis_candidate w) (nextRef w)) = payload GenesisStar None
  /\ forall r, r <> nextRef w -> heap (genesis_candidate w) r = heap w r.
Proof.
  unfold genesis_candidate, exec.
  cbv [bind Block_new modify ret]. cbn [heap nextRef this clock fst snd].
  repeat split.
  - now rewrite !update_same.
  - intros r Hr. now rewrite !update_other by assumption.
Qed.

Lemma constructor_facts (w : World) :
  chain (this (exec constructor w)) = [nextRef w]
  /\ height (this (exec constructor w)) = -1
  /\ nextRef (exec constructor w) = S (nextRef w)
  /\ Block.body (heap (exec constructor w) (nextRef w)) = payload GenesisStar None.
Proof.
  destruct (constructor_appends w) as [Hc Hh Hn _ Hb _].
  destruct (genesis_candidate_facts
              (mkWorld (heap w) (nextRef w) (mkBlockchain [] (-1)) (clock w)))
    as (Ht & Hx & Hp & _).
  cbn [nextRef this] in Ht, Hx, Hp, Hc, Hh, Hn, Hb.
  rewrite Ht in Hc, Hh. rewrite Hx in Hn. rewrite Hp in Hb.
  repeat split; assumption.
Qed.

Lemma initializeChain_again_facts (w : World) :
  height (this w) = -1 ->
  chain (this (exec initializeChain w)) = (chain (this w) ++ [nextRef w])%list
  /\ height (this (exec initializeChain w)) = -1
  /\ Block.body (heap (exec initializeChain w) (nextRef w)) = payload GenesisStar None
  /\ forall r, r <> nextRef w -> heap (exec initializeChain w) r = heap w r.
Proof.
  intros Hh0.
  destruct (initializeChain_appends w Hh0) as [Hc Hh _ Hf Hb _].
  destruct (genesis_candidate_facts w) as (Ht & _ & Hp & Hg).
  rewrite Ht in Hc, Hh. rewrite Hp in Hb.
  repeat split; try assumption.
  - now rewrite Hh.
  - intros r Hr. rewrite Hf by assumption. now apply Hg.
Qed.

(** *** [submitStar] *)

(** [submitStar], step by step. *)
Lemma submitStar_run (address message signature : string) (star : Star) (w : World) :
  run (submitStar address message signature star) w =
  if more_than_5_minutes
       (JS.parseInt (result now_seconds w))
       (JS.parseInt_opt (nth_error (JS.split ":" message) 1))
  then (Rejected (MkError "More than 5 mins elapsed since the signing of the message"),
        exec now_seconds w)
  else
    match bitcoinMessage_verify message address signature with
    | Throw =>
        (Rejected (MkError "Error while adding the block to chain"),
         exec now_seconds w)
    | Normal false =>
        (Rejected (MkError "Not able to verify the message"), exec now_seconds w)
    | Normal true =>
        run (_addBlock (VBlock (nextRef w))) (claim_candidate address star w)
    end.
Proof.
  unfold run, submitStar, claim_candidate, result, exec.
  cbv [bind now_seconds getTime ret Block_new modify].
  cbn [heap nextRef this clock fst snd].
  destruct (more_than_5_minutes _ _); [reflexivity|].
  destruct (bitcoinMessage_verify message address signature) as [[|]|];
    reflexivity.
Qed.

Lemma claim_candidate_facts (address : string) (star : Star) (w : World) :
  this (claim_candidate address star w) = this w
  /\ Block.owner (heap (claim_candidate address star w) (nextRef w)) = Some address
  /\ Block.body (heap (claim_candidate address star w) (nextRef w))
     = payload star (Some address).
Proof.
  unfold claim_candidate, exec.
  cbv [bind now_seconds getTime ret Block_new modify].
  cbn [heap nextRef this clock fst snd].
  repeat split; now rewrite !update_same.
Qed.


(** A recent, verified claim settles the way [_addBlock] settles. *)
Lemma submitStar_settles_as_addBlock
    (address message signature : string) (star : Star) (w : World) :
  more_than_5_minutes
    (JS.parseInt (result now_seconds w))
    (JS.parseInt_opt (nth_error (JS.split ":" message) 1)) = false ->
  bitcoinMessage_verify message address signature = Normal true ->
  run (submitStar address message signature star) w
  = run (_addBlock (VBlock (nextRef w))) (claim_candidate address star w).
Proof.
  intros Ht Hv. now rewrite submitStar_run, Ht, Hv.
Qed.

(** The decoded payload of a block is the text its constructor was given. *)
Lemma decoded_payload (star : Star) (owner : option string) :
  Hex.hex2ascii (payload star owner) = JSON_stringify_data star owner.
Proof. apply hex2ascii_ascii2hex. Qed.

(** *** [getStarsByWalletAddress] *)

Lemma getStarsByWalletAddress_lists (address : string) (w : World) (r : ref) :
  In r (chain (this w)) ->
  Block.owner (heap w r) = Some address ->
  exists stars,
    result (getStarsByWalletAddress address) w = Resolved (Some stars)
    /\ In (Hex.hex2ascii (Block.body (heap w r))) stars.
Proof.
  intros Hin Hown. unfold result, getStarsByWalletAddress, reading. cbn [fst].
  rewrite push_loop_map. cbn [app].
  set (owned := filter _ _).
  assert (Hr : In r owned).
  { apply filter_In. split; [assumption|]. rewrite Hown. apply strict_eq_refl. }
  assert (Hs : In (Hex.hex2ascii (Block.body (heap w r)))
                  (map (fun block => Hex.hex2ascii (Block.body (heap w block))) owned)).
  { apply (in_map (fun block => Hex.hex2ascii (Block.body (heap w block)))). exact Hr. }
  destruct (map _ owned) as [|x l] eqn:Hm; [destruct Hs|].
  cbn. eexists. split; [reflexivity|exact Hs].
Qed.

End Ledger.

(** * The claims of the specification *)

Section Claims.

Context {E : Externals}.

(** C1. The specification says the ledger's [height] always equals
    [blocks.length - 1] and that every successful append increments it. The
    code never writes [this.height] after the constructor has set it to -1:
    once the genesis block has been appended the chain has one block,
    [getChainHeight] still resolves with -1, and no later [_addBlock] changes
    that. *)
Theorem height_is_never_incremented (w : World) :
  let w1 := exec constructor w in
  length (chain (this w1)) = 1%nat
  /\ result getChainHeight w1 = Resolved (-1)
  /\ forall block,
       result getChainHeight (exec (_addBlock block) w1) = Resolved (-1).
Proof.
  intros w1. destruct (constructor_facts w) as (Hc & Hh & _).
  fold w1 in Hc, Hh.
  split; [|split].
  - now rewrite Hc.
  - unfold result, getChainHeight, reading. cbn [fst]. now rewrite Hh.
  - intros block. unfold result, getChainHeight, reading. cbn [fst].
    now rewrite addBlock_height, Hh.
Qed.

(** C2. The specification says a second [initialize()] is a no-op. In the
    code the guard [this.height === -1] still holds after the first call, so
    a second call appends a second block with the genesis payload: the chain
    then has two blocks and [height] is still -1. *)
Theorem initializeChain_twice_appends_twice (w : World) :
  let w1 := exec constructor w in
  let w2 := exec initializeChain w1 in
  chain (this w1) = [nextRef w]
  /\ chain (this w2) = [nextRef w; S (nextRef w)]
  /\ height (this w2) = -1
  /\ map Block.body (blocks w2)
     = [payload GenesisStar None; payload GenesisStar None].
Proof.
  intros w1 w2.
  destruct (constructor_facts w) as (Hc1 & Hh1 & Hn1 & Hb1).
  fold w1 in Hc1, Hh1, Hn1, Hb1.
  destruct (initializeChain_again_facts w1 Hh1) as (Hc2 & Hh2 & Hb2 & Hf2).
  fold w2 in Hc2, Hh2, Hb2, Hf2.
  rewrite Hn1 in Hc2, Hb2, Hf2. rewrite Hc1 in Hc2.
  clearbody w1 w2.
  split; [assumption|]. split; [assumption|]. split; [assumption|].
  unfold blocks. rewrite Hc2. cbn [map app].
  rewrite Hb2, (Hf2 (nextRef w)) by lia. now rewrite Hb1.
Qed.

(** C3. [validateChain] always resolves, leaves the state as it is, and its
    result is the list the specification describes: scanning the indices 0 to
    length-2 in order, index [i] is recorded once if block [i] does not
    validate and once more if its hash differs from the back-link of block
    [i+1]. So [i] occurs as many times as it has violations (0, 1 or 2),
    nothing at or beyond length-1 occurs, and the list is in ascending
    order. *)
Theorem validateChain_records_offending_indices (w : World) :
  run validateChain w = (Resolved (validate_chain_spec w), w)
  /\ (forall i, count_occ Nat.eq_dec (validate_chain_spec w) i = violations w i)
  /\ (forall i, In i (validate_chain_spec w) -> (i + 1 < length (blocks w))%nat)
  /\ StronglySorted le (validate_chain_spec w).
Proof.
  split; [apply validateChain_run|].
  split; [apply validate_chain_spec_count|].
  split.
  - intros i Hi. unfold validate_chain_spec in Hi.
    apply in_flat_map in Hi. destruct Hi as (j & Hj & Hij).
    rewrite errors_at_repeat in Hij. apply repeat_spec in Hij. subst i.
    apply in_seq in Hj. lia.
  - rewrite validate_chain_spec_repeat. apply sorted_repeat_seq.
Qed.

(** C5. [submitStar] rejects, and leaves the chain and every block as they
    were, when the seconds read from the clock exceed the time embedded in
    the challenge by more than 300, whatever the signature; and it rejects,
    again without any change to the chain or the blocks, when
    [bitcoinMessage.verify] returns false or throws, whatever the time. *)
Theorem submitStar_rejects_stale_and_unsigned
    (address message signature : string) (star : Star) (w : World) :
  let outcome := result (submitStar address message signature star) w in
  let w' := exec (submitStar address message signature star) w in
  (forall c m,
      JS.parseInt (result now_seconds w) = Some c ->
      JS.parseInt_opt (nth_error (JS.split ":" message) 1) = Some m ->
      300 < c - m ->
      outcome = Rejected (MkError "More than 5 mins elapsed since the signing of the message")
      /\ this w' = this w /\ heap w' = heap w)
  /\ (bitcoinMessage_verify message address signature = Normal false
      \/ bitcoinMessage_verify message address signature = Throw ->
      (exists e, outcome = Rejected e) /\ this w' = this w /\ heap w' = heap w).
Proof.
  intros outcome w'. subst outcome w'.
  pose proof (submitStar_run address message signature star w) as Hrun.
  split.
  - intros c m Hc Hm Hgt.
    rewrite Hc, Hm, more_than_5_minutes_seconds in Hrun.
    replace (300 <? c - m) with true in Hrun by (symmetry; apply Z.ltb_lt; lia).
    apply run_eq in Hrun as [-> ->]. repeat split.
  - intros Hv.
    destruct (more_than_5_minutes _ _).
    + apply run_eq in Hrun as [-> ->]. repeat split. eexists. reflexivity.
    + destruct Hv as [Hv | Hv]; rewrite Hv in Hrun;
        apply run_eq in Hrun as [-> ->];
        (split; [eexists; reflexivity | repeat split]).
Qed.


(** The wrapping of errors that [submitStar] does perform: within the time
    window, an exception thrown by the signature check is surfaced as the one
    generic error, 'Error while adding the block to chain', and nothing is
    appended. *)
Theorem submitStar_surfaces_errors
    (address message signature : string) (star : Star) (w : World) :
  more_than_5_minutes
    (JS.parseInt (result now_seconds w))
    (JS.parseInt_opt (nth_error (JS.split ":" message) 1)) = false ->
  bitcoinMessage_verify message address signature = Throw ->
  result (submitStar address message signature star) w
  = Rejected (MkError "Error while adding the block to chain")
  /\ this (exec (submitStar address message signature star) w) = this w
  /\ heap (exec (submitStar address message signature star) w) = heap w.
Proof.
  intros Ht Hv.
  pose proof (submitStar_run address message signature star w) as Hrun.
  rewrite Ht, Hv in Hrun. apply run_eq in Hrun as [-> ->].
  repeat split.
Qed.

(** C8. When the validation that [_addBlock] runs after the push reports an
    error, [_addBlock] rejects with 'Blockchain validation failed ' and the
    block stays in the chain, as its last element. *)
Theorem addBlock_rejects_and_keeps_block
    (b : ref) (w : World) (errorLog : list nat) :
  result validateChain (exec (_addBlock (VBlock b)) w) = Resolved errorLog ->
  (0 < length errorLog)%nat ->
  result (_addBlock (VBlock b)) w
  = Rejected (MkError "Blockchain validation failed ")
  /\ chain (this (exec (_addBlock (VBlock b)) w)) = (chain (this w) ++ [b])%list.
Proof.
  intros Hv Hlen.
  destruct (addBlock_shape b w) as (w1 & Hrun & Happ).
  unfold result, exec in *. unfold run in Hrun. rewrite Hrun in *.
  cbn [fst snd] in *.
  pose proof (validateChain_run w1) as Hvc. unfold run in Hvc.
  rewrite Hvc in Hv. cbn in Hv. injection Hv as Hv. rewrite Hv.
  apply Nat.ltb_lt in Hlen. rewrite Hlen.
  split; [reflexivity | apply Happ].
Qed.

(** C9. [getBData] on a block of height 0 always fails with 'Can not return
    data for Genesis Block'; on a block of any other height whose payload is
    the encoding of a text, it resolves with that text. *)
Theorem getBData_genesis_and_others (b : Block.t) :
  (Block.height b = 0 ->
   getBData b = Rejected (MkError "Can not return data for Genesis Block"))
  /\ (Block.height b <> 0 ->
      forall text, Block.body b = Hex.ascii2hex text ->
                   getBData b = Resolved text).
Proof.
  unfold getBData. split.
  - intros ->. reflexivity.
  - intros Hh text Hb. apply Z.eqb_neq in Hh. rewrite Hh, Hb.
    now rewrite hex2ascii_ascii2hex.
Qed.

(** C10. After a [submitStar] that resolves, [getStarsByWalletAddress] for
    the same address resolves with a list (not with null), and the decoded
    payload of the block made for [{star, owner: address}] is in it. *)
Theorem submitted_star_is_listed
    (address message signature : string) (star : Star) (w : World) (v : Value) :
  result (submitStar address message signature star) w = Resolved v ->
  exists stars,
    result (getStarsByWalletAddress address)
           (exec (submitStar address message signature star) w)
    = Resolved (Some stars)
    /\ In (Hex.hex2ascii (payload star (Some address))) stars.
Proof.
  intros Hres.
  pose proof (submitStar_run address message signature star w) as Hrun.
  destruct (more_than_5_minutes _ _);
    [apply run_eq in Hrun as [Hr _]; congruence|].
  destruct (bitcoinMessage_verify message address signature) as [[|]|];
    try (apply run_eq in Hrun as [Hr _]; congruence).
  destruct (addBlock_shape (nextRef w) (claim_candidate address star w))
    as (w1 & Hadd & Happ).
  rewrite Hadd in Hrun. apply run_eq in Hrun as [_ ->]. clear Hres Hadd.
  destruct (claim_candidate_facts address star w) as (_ & Hown & Hbody).
  destruct (getStarsByWalletAddress_lists address w1 (nextRef w)) as (stars & Hs & Hin).
  - rewrite (app_chain _ _ _ Happ). apply in_or_app. right. now left.
  - rewrite (app_owner _ _ _ Happ). exact Hown.
  - exists stars. split; [exact Hs|].
    now rewrite (app_body _ _ _ Happ), Hbody in Hin.
Qed.

End Claims.

(** * Further properties *)

(** ** The clock in seconds *)

Lemma of_uint_acc_value (d : Decimal.uint) : forall acc,
  Z.pos (Pos.of_uint_acc d acc) = uint_value d (Z.pos acc).
Proof.
  induction d; intros acc; cbn [Pos.of_uint_acc uint_value];
    try reflexivity; rewrite IHd; f_equal; lia.
Qed.

Lemma of_uint_value (d : Decimal.uint) :
  Z.of_N (Pos.of_uint d) = uint_value d 0.
Proof.
  induction d; cbn [Pos.of_uint uint_value]; try reflexivity;
    try (rewrite IHd; reflexivity);
    cbn [Z.of_N]; rewrite of_uint_acc_value; reflexivity.
Qed.

Lemma string_of_uint_decimal (d : Decimal.uint) :
  all_decimal (NilEmpty.string_of_uint d) = true
  /\ forall acc, decimal_value (NilEmpty.string_of_uint d) acc = uint_value d acc.
Proof.
  induction d as [|d [IH1 IH2]|d [IH1 IH2]|d [IH1 IH2]|d [IH1 IH2]|d [IH1 IH2]
                  |d [IH1 IH2]|d [IH1 IH2]|d [IH1 IH2]|d [IH1 IH2]|d [IH1 IH2]];
    (split; [try reflexivity; cbn [NilEmpty.string_of_uint all_decimal]; rewrite IH1; reflexivity
            | intros acc; try reflexivity;
              cbn [NilEmpty.string_of_uint decimal_value uint_value];
              rewrite IH2; f_equal; cbn; lia]).
Qed.

(** The decimal text of a positive number denotes that number. *)
Lemma toString_positive (p : positive) :
  all_decimal (JS.toString (Z.pos p)) = true
  /\ decimal_value (JS.toString (Z.pos p)) 0 = Z.pos p.
Proof.
  unfold JS.toString. cbn [Z.to_int NilZero.string_of_int].
  unfold NilZero.string_of_uint.
  pose proof (Unsigned.to_uint_nonnil p) as Hn.
  pose proof (Unsigned.of_to p) as Hv.
  destruct (string_of_uint_decimal (Pos.to_uint p)) as [Ha Hd].
  assert (Hs : match Pos.to_uint p with
               | Decimal.Nil => "0"
               | _ => NilEmpty.string_of_uint (Pos.to_uint p)
               end = NilEmpty.string_of_uint (Pos.to_uint p)).
  { destruct (Pos.to_uint p); try reflexivity. contradiction. }
  rewrite Hs. split; [exact Ha|].
  rewrite Hd, <- of_uint_value, Hv. reflexivity.
Qed.

Lemma is_decimal_value (c : ascii) :
  is_decimal c = true ->
  exists d, JS.digit_value c = Some d /\ 0 <= d < 10.
Proof.
  unfold is_decimal. intros H.
  destruct (JS.digit_value c) as [d|] eqn:Hd; [|discriminate].
  exists d. split; [reflexivity|]. apply Z.ltb_lt in H.
  unfold JS.digit_value in Hd.
  repeat match type of Hd with
         | (if ?c then _ else _) = _ => destruct c eqn:?
         end; inversion Hd; subst; lia.
Qed.

Lemma parse_digits_decimal (s : string) : forall acc,
  all_decimal s = true ->
  JS.parse_digits 10 s (Some acc) = Some (decimal_value s acc).
Proof.
  induction s as [|c s IH]; intros acc Hs; cbn [JS.parse_digits decimal_value].
  - reflexivity.
  - cbn [all_decimal] in Hs. apply andb_true_iff in Hs as [Hc Hs].
    destruct (is_decimal_value c Hc) as (d & Hd & Hr). rewrite Hd.
    replace (d <? 10) with true by (symmetry; apply Z.ltb_lt; lia).
    now apply IH.
Qed.

Lemma parse_digits_decimal_start (c : ascii) (s : string) :
  all_decimal (String c s) = true ->
  JS.parse_digits 10 (String c s) None = Some (decimal_value (String c s) 0).
Proof.
  intros Hs. cbn [JS.parse_digits decimal_value].
  cbn [all_decimal] in Hs. apply andb_true_iff in Hs as [Hc Hs].
  destruct (is_decimal_value c Hc) as (d & Hd & Hr). rewrite Hd.
  replace (d <? 10) with true by (symmetry; apply Z.ltb_lt; lia).
  now apply parse_digits_decimal.
Qed.

(** On a text of decimal digits [parseInt] reads the whole text in base 10. *)
Ltac read_base_10 :=
  match goal with
  | |- JS.parseInt ?x = _ =>
      change (JS.parseInt x)
        with (match JS.parse_digits 10 x None with
              | Some n => Some (1 * n)
              | None => None
              end);
      destruct (JS.parse_digits 10 x None) as [n|];
      [f_equal; apply Z.mul_1_l | reflexivity]
  end.

Lemma parseInt_decimal (s : string) :
  all_decimal s = true ->
  JS.parseInt s = JS.parse_digits 10 s None.
Proof.
  destruct s as [|c s]; [reflexivity|].
  intros Hs. cbn [all_decimal] in Hs. apply andb_true_iff in Hs as [Hc Hs].
  destruct s as [|c2 s].
  - destruct c as [[] [] [] [] [] [] [] []]; try discriminate Hc; reflexivity.
  - cbn [all_decimal] in Hs. apply andb_true_iff in Hs as [Hc2 Hs].
    destruct c as [[] [] [] [] [] [] [] []]; try discriminate Hc;
      destruct c2 as [[] [] [] [] [] [] [] []]; try discriminate Hc2;
      read_base_10.
Qed.

Lemma all_decimal_app (s t : string) :
  all_decimal (s ++ t) = all_decimal s && all_decimal t.
Proof.
  induction s as [|c s IH]; cbn; [reflexivity|]. now rewrite IH, andb_assoc.
Qed.

Lemma decimal_value_app (s t : string) : forall acc,
  decimal_value (s ++ t) acc = decimal_value t (decimal_value s acc).
Proof.
  induction s as [|c s IH]; intros acc; cbn; [reflexivity|]. apply IH.
Qed.

Lemma decimal_value_shift (s : string) : forall acc,
  decimal_value s acc = acc * 10 ^ Z.of_nat (String.length s) + decimal_value s 0.
Proof.
  induction s as [|c s IH]; intros acc.
  - cbn. lia.
  - cbn [decimal_value String.length].
    rewrite IH, (IH (10 * 0 + _)), Nat2Z.inj_succ, Z.pow_succ_r by lia. lia.
Qed.

Lemma decimal_value_bound (s : string) :
  all_decimal s = true ->
  0 <= decimal_value s 0 < 10 ^ Z.of_nat (String.length s).
Proof.
  induction s as [|c s IH]; intros Hs.
  - cbn. lia.
  - cbn [all_decimal] in Hs. apply andb_true_iff in Hs as [Hc Hs].
    destruct (is_decimal_value c Hc) as (d & Hd & Hr).
    cbn [decimal_value String.length]. rewrite Hd.
    rewrite decimal_value_shift, Nat2Z.inj_succ, Z.pow_succ_r by lia.
    specialize (IH Hs). nia.
Qed.

(** [s.slice(0, -3)] splits off the last three characters. *)
Lemma substring_prefix (s : string) : forall n,
  (n <= String.length s)%nat ->
  exists t, s = substring 0 n s ++ t
            /\ String.length t = (String.length s - n)%nat
            /\ String.length (substring 0 n s) = n.
Proof.
  induction s as [|c s IH]; intros n Hn.
  - cbn in Hn. assert (n = 0%nat) by lia. subst. exists "". repeat split.
  - destruct n as [|n].
    + exists (String c s). repeat split.
    + cbn [String.length] in Hn. destruct (IH n) as (t & Ht & Hl & Hp); [lia|].
      exists t. cbn [substring append String.length]. repeat split.
      * now rewrite <- Ht.
      * exact Hl.
      * now rewrite Hp.
Qed.

(** The text [toString().slice(0, -3)] of a clock reading of at least one
    second is a decimal text, and [parseInt] of it is the reading in whole
    seconds. *)
Lemma seconds_of_clock (ms : Z) :
  1000 <= ms ->
  JS.parseInt (JS.slice_0_m3 (JS.toString ms)) = Some (ms / 1000)
  /\ all_decimal (JS.slice_0_m3 (JS.toString ms)) = true.
Proof.
  intros Hms. destruct ms as [|p|p]; try lia.
  destruct (toString_positive p) as [Ha Hv].
  remember (JS.toString (Z.pos p)) as s eqn:Es. clear Es.
  pose proof (decimal_value_bound s Ha) as Hb.
  assert (Hlen : (4 <= String.length s)%nat).
  { destruct (Nat.le_gt_cases 4 (String.length s)) as [H|H]; [exact H|].
    assert (10 ^ Z.of_nat (String.length s) <= 10 ^ 3)
      by (apply Z.pow_le_mono_r; lia).
    lia. }
  unfold JS.slice_0_m3.
  destruct (substring_prefix s (String.length s - 3)) as (t & Hs & Ht & Hp); [lia|].
  remember (substring 0 (String.length s - 3) s) as s1 eqn:Es1. clear Es1.
  assert (Hdec : all_decimal s1 = true /\ all_decimal t = true).
  { rewrite Hs, all_decimal_app in Ha. now apply andb_true_iff in Ha. }
  destruct Hdec as [H1 H2].
  split; [|exact H1].
  rewrite parseInt_decimal by exact H1.
  destruct s1 as [|c s1']; [cbn in Hp; lia|].
  rewrite parse_digits_decimal_start by exact H1. f_equal.
  rewrite Hs, decimal_value_app, decimal_value_shift in Hv.
  pose proof (decimal_value_bound t H2) as Hbt.
  replace (String.length t) with 3%nat in * by lia.
  change (10 ^ Z.of_nat 3) with 1000 in *.
  apply (Z.div_unique _ _ _ (decimal_value t 0)); lia.
Qed.

(** ** The challenge *)

Lemma append_String (a : string) (c : ascii) (r : string) :
  (a ++ String c EmptyString) ++ r = a ++ String c r.
Proof.
  induction a as [|x a IH]; cbn; [reflexivity|]. now rewrite IH.
Qed.

Lemma append_empty (a : string) : a ++ "" = a.
Proof. induction a as [|x a IH]; cbn; [reflexivity|]. now rewrite IH. Qed.

(** A field that does not contain the separator is read up to the next
    separator. *)
Lemma split_from_field (sep : ascii) (a rest : string) : forall cur,
  has_char sep a = false ->
  JS.split_from sep (a ++ String sep rest) cur
  = (cur ++ a) :: JS.split_from sep rest EmptyString.
Proof.
  induction a as [|x a IH]; intros cur Ha; cbn [append JS.split_from].
  - rewrite Ascii.eqb_refl, append_empty. reflexivity.
  - cbn [has_char] in Ha. apply orb_false_iff in Ha as [Hx Ha].
    rewrite Hx, IH by assumption. now rewrite append_String.
Qed.

Lemma decimal_has_no_colon (s : string) :
  all_decimal s = true -> has_char ":" s = false.
Proof.
  induction s as [|c s IH]; intros Hs; [reflexivity|].
  cbn [all_decimal] in Hs. apply andb_true_iff in Hs as [Hc Hs].
  cbn [has_char]. rewrite (IH Hs), orb_false_r.
  destruct (Ascii.eqb_spec c ":") as [->|]; [discriminate Hc | reflexivity].
Qed.

(** The fields of a challenge. *)
Lemma challenge_fields (address t : string) :
  has_char ":" address = false ->
  has_char ":" t = false ->
  JS.split ":" ((address ++ ":") ++ (t ++ ":starRegistry"))
  = [address; t; "starRegistry"].
Proof.
  intros Ha Ht. unfold JS.split.
  rewrite append_String, split_from_field by assumption.
  rewrite split_from_field by assumption. reflexivity.
Qed.

Section Challenge.

Context {E : Externals}.

Lemma requestMessageOwnershipVerification_run (address : string) (w : World) :
  run (requestMessageOwnershipVerification address) w
  = (Resolved ((address ++ ":")
               ++ (JS.slice_0_m3 (JS.toString (Date_getTime (clock w)))
                   ++ ":starRegistry")),
     exec now_seconds w).
Proof. reflexivity. Qed.

(** X1. The challenge issued for an address without a colon, at a clock
    reading of at least one second, has the address as its first field, and
    the time [submitStar] reads out of its second field is the clock reading
    in whole seconds. Issuing it changes neither the ledger nor any block. *)
Theorem challenge_carries_the_time (address : string) (w : World) (ms : Z) :
  has_char ":" address = false ->
  Date_getTime (clock w) = ms ->
  1000 <= ms ->
  exists message,
    result (requestMessageOwnershipVerification address) w = Resolved message
    /\ nth_error (JS.split ":" message) 0 = Some address
    /\ JS.parseInt_opt (nth_error (JS.split ":" message) 1) = Some (ms / 1000)
    /\ this (exec (requestMessageOwnershipVerification address) w) = this w
    /\ heap (exec (requestMessageOwnershipVerification address) w) = heap w.
Proof.
  intros Ha Hms Hr.
  pose proof (requestMessageOwnershipVerification_run address w) as Hrun.
  apply run_eq in Hrun as [Hres Hex]. rewrite Hres, Hex, Hms.
  destruct (seconds_of_clock ms Hr) as [Hp Hd].
  eexists. split; [reflexivity|].
  rewrite challenge_fields by (try assumption; now apply decimal_has_no_colon).
  cbn [nth_error JS.parseInt_opt]. rewrite Hp. repeat split.
Qed.


End Challenge.

(** ** Appending to a chain in good order *)

Section Appending.

Context {E : Externals}.

(** The block object [_addBlock] leaves behind: [blk] is the block as it was
    serialised for the digest, still with the hash it came with. *)
Lemma addBlock_sealed (b : ref) (w : World) :
  exists w1 blk,
    run (_addBlock (VBlock b)) w =
      (if (0 <? length (validate_chain_spec w1))%nat
       then Rejected (MkError "Blockchain validation failed ")
       else Resolved (VBlock b), w1)
    /\ appended_to b w w1
    /\ heap w1 b = Block.set_hash (Some (SHA256 (JSON_stringify blk))) blk
    /\ Block.hash blk = Block.hash (heap w b)
    /\ Block.body blk = Block.body (heap w b)
    /\ Block.owner blk = Block.owner (heap w b)
    /\ Block.time blk = JS.slice_0_m3 (JS.toString (Date_getTime (S (clock w))))
    /\ (chain (this w) = [] ->
        Block.previousBlockHash blk = Block.previousBlockHash (heap w b)
        /\ Block.height blk = Block.height (heap w b))
    /\ (forall c x, chain (this w) = (c ++ [x])%list ->
        Block.previousBlockHash blk = Block.hash (heap w x)
        /\ Block.height blk = Z.of_nat (length (chain (this w)))).
Proof.
  destruct w as [h n [ch ht] ck].
  destruct ch as [|r0 ch0] eqn:Hch.
  - unfold run, _addBlock.
    cbv [bind ret getTime modify chain_length reading chain_at load push
         validateChain now_seconds].
    cbn [heap nextRef this clock chain height length Z.of_nat Z.ltb Z.compare
         negb app].
    cbn [Z.eqb Pos.of_succ_nat negb]. rewrite validateChain_loop_spec.
    match goal with
    | |- context [validate_chain_spec ?W] => exists W
    end.
    eexists. split.
    { destruct (0 <? length (validate_chain_spec _))%nat; reflexivity. }
    split.
    { split; cbn [heap nextRef this clock chain height];
        [ reflexivity | reflexivity | reflexivity
        | intros r Hr; now rewrite !update_other by assumption
        | now rewrite !update_same
        | now rewrite !update_same ]. }
    cbn [heap nextRef this clock chain height].
    split; [rewrite update_same; reflexivity|].
    rewrite !update_same. cbn.
    do 4 (split; [reflexivity|]).
    split; [intros _; split; reflexivity|].
    intros c x Hc. destruct c; discriminate Hc.
  - destruct (exists_last (l := r0 :: ch0)) as (c & x & Hc); [discriminate|].
    rewrite Hc.
    unfold run, _addBlock.
    cbv [bind ret getTime modify chain_length reading chain_at load push
         validateChain now_seconds].
    cbn [heap nextRef this clock chain height].
    replace (0 <? Z.of_nat (length (c ++ [x]))) with true
      by (symmetry; apply Z.ltb_lt; rewrite length_app; cbn; lia).
    cbn [negb heap nextRef this clock chain height].
    rewrite (index_last c x VBlock).
    cbn [negb heap nextRef this clock chain height].
    replace (Z.of_nat (length ((c ++ [x]) ++ [b])) =? 0) with false
      by (symmetry; apply Z.eqb_neq; rewrite !length_app; cbn; lia).
    cbn [negb heap nextRef this clock chain height].
    rewrite validateChain_loop_spec.
    match goal with
    | |- context [validate_chain_spec ?W] => exists W
    end.
    eexists. split.
    { destruct (0 <? length (validate_chain_spec _))%nat;
        [ reflexivity
        | cbn [heap nextRef this clock chain height];
          rewrite (index_last _ b VBlock); reflexivity ]. }
    split.
    { split; cbn [heap nextRef this clock chain height];
        [ reflexivity | reflexivity | reflexivity
        | intros r Hr; now rewrite !update_other by assumption
        | now rewrite !update_same
        | now rewrite !update_same ]. }
    cbn [heap nextRef this clock chain height].
    split; [rewrite update_same; reflexivity|].
    rewrite !update_same. cbn.
    do 4 (split; [reflexivity|]).
    split; [intros Hnil; destruct c; discriminate Hnil|].
    intros c' x' Hc'. apply app_inj_tail in Hc' as [_ <-].
    split; [|reflexivity].
    unfold update. destruct (Nat.eqb x b) eqn:Hx; [|reflexivity].
    apply Nat.eqb_eq in Hx. subst. reflexivity.
Qed.

Lemma heights_from_app (bs : list Block.t) (b : Block.t) : forall i,
  heights_from i (bs ++ [b])
  = heights_from i bs && (Block.height b =? i + Z.of_nat (length bs)).
Proof.
  induction bs as [|a bs IH]; intros i; cbn [app heights_from length].
  - rewrite Z.add_0_r. cbn. now rewrite andb_true_r.
  - rewrite IH, andb_assoc. do 2 f_equal. lia.
Qed.

Lemma linked_app (bs : list Block.t) (t b : Block.t) :
  linked ((bs ++ [t]) ++ [b])
  = linked (bs ++ [t]) && JS.strict_eq (Block.hash t) (Block.previousBlockHash b).
Proof.
  induction bs as [|a bs IH].
  - cbn. now rewrite !andb_true_r.
  - change (((a :: bs) ++ [t]) ++ [b])%list with (a :: ((bs ++ [t]) ++ [b]))%list.
    change ((a :: bs) ++ [t])%list with (a :: (bs ++ [t]))%list.
    cbn [linked]. rewrite IH.
    destruct bs as [|a' bs]; cbn [app]; now rewrite andb_assoc.
Qed.

Lemma distinct_app (l : list ref) (x : ref) :
  distinct (l ++ [x]) = distinct l && negb (existsb (Nat.eqb x) l).
Proof.
  induction l as [|r l IH]; cbn [app distinct].
  - reflexivity.
  - rewrite IH, existsb_app. cbn [existsb]. rewrite orb_false_r.
    rewrite (Nat.eqb_sym x r).
    unfold ref in *.
    generalize (existsb (Nat.eqb r) l), (r =? x)%nat, (distinct l),
               (existsb (Nat.eqb x) l).
    intros [] [] [] []; reflexivity.
Qed.

Lemma not_in_chain (x : ref) (l : list ref) :
  existsb (Nat.eqb x) l = false -> forall r, In r l -> r <> x.
Proof.
  intros H r Hr ->.
  assert (existsb (Nat.eqb x) l = true); [|congruence].
  apply existsb_exists. exists x. split; [assumption | apply Nat.eqb_refl].
Qed.

Lemma linked_spec (bs : list Block.t) :
  linked bs = true ->
  forall i b b',
    nth_error bs i = Some b -> nth_error bs (i + 1) = Some b' ->
    Block.previousBlockHash b' = Block.hash b.
Proof.
  induction bs as [|a bs IH]; intros Hl i b b' Hb Hb'.
  - destruct i; discriminate.
  - cbn [linked] in Hl. apply andb_true_iff in Hl as [Hh Hl].
    destruct i as [|i].
    + cbn in Hb, Hb'. injection Hb as <-.
      destruct bs as [|a' bs]; [discriminate|].
      cbn in Hb'. injection Hb' as <-.
      symmetry. now apply strict_eq_true.
    + cbn in Hb, Hb'. now apply (IH Hl i).
Qed.

(** A chain in good order has no offending index. *)
Lemma sound_validates (w : World) :
  sound w = true -> validate_chain_spec w = [].
Proof.
  unfold sound. intros H.
  repeat (apply andb_true_iff in H as [H ?]).
  apply validateChain_sound_chain.
  - intros i b Hb. apply nth_error_In in Hb.
    eapply forallb_forall; eassumption.
  - now apply linked_spec.
Qed.

Lemma validate_sealed (blk : Block.t) :
  Block.hash blk = None ->
  validate (Block.set_hash (Some (SHA256 (JSON_stringify blk))) blk) = true.
Proof.
  intros H. unfold validate. destruct blk as [h ht bd tm pv ow].
  cbn in *. subst h. apply String.eqb_refl.
Qed.

Lemma sound_same_blocks (w w' : World) :
  chain (this w') = chain (this w) -> blocks w' = blocks w ->
  sound w' = sound w.
Proof. unfold sound. now intros -> ->. Qed.

(** Appending a new block object that has no hash yet to a chain in good
    order succeeds, and leaves a chain in good order. *)
Lemma addBlock_sound_step (b : ref) (w : World) :
  sound w = true ->
  existsb (Nat.eqb b) (chain (this w)) = false ->
  Block.hash (heap w b) = None ->
  result (_addBlock (VBlock b)) w = Resolved (VBlock b)
  /\ chain (this (exec (_addBlock (VBlock b)) w)) = (chain (this w) ++ [b])%list
  /\ sound (exec (_addBlock (VBlock b)) w) = true.
Proof.
  intros Hs Hb Hh.
  assert (Hs' := Hs). unfold sound in Hs'.
  repeat (apply andb_true_iff in Hs' as [Hs' ?]).
  destruct (exists_last (l := chain (this w))) as (c & x & Hc).
  { intros Hnil. rewrite Hnil in Hs'. discriminate. }
  destruct (addBlock_sealed b w)
    as (w1 & blk & Hrun & Happ & Hnew & Hhash & _ & _ & _ & _ & Hlast).
  destruct (Hlast c x Hc) as [Hprev Hht].
  assert (Hblocks : blocks w1 = (blocks w ++ [heap w1 b])%list).
  { unfold blocks. rewrite (app_chain _ _ _ Happ), map_app. cbn [map]. f_equal.
    apply map_ext_in. intros r Hr. apply (app_frame _ _ _ Happ).
    now apply (not_in_chain b (chain (this w))). }
  assert (Hlink : linked (blocks w ++ [heap w1 b])
                  = linked (blocks w)
                    && JS.strict_eq (Block.hash (heap w x))
                                    (Block.previousBlockHash (heap w1 b))).
  { unfold blocks. rewrite Hc, map_app. cbn [map]. apply linked_app. }
  assert (Hsound : sound w1 = true).
  { unfold sound. rewrite Hblocks, (app_chain _ _ _ Happ), Hlink.
    rewrite length_app, distinct_app, forallb_app, heights_from_app.
    cbn [forallb length]. rewrite Hb, Hnew.
    rewrite validate_sealed by congruence.
    cbn [Block.height Block.previousBlockHash Block.set_hash].
    rewrite Hht, Hprev, strict_eq_refl.
    unfold blocks at 3. rewrite length_map, Z.add_0_l, Z.eqb_refl.
    repeat (apply andb_true_iff; split); try assumption; try reflexivity.
    apply Bool.negb_true_iff, Nat.eqb_neq. lia. }
  apply run_eq in Hrun as [Hres Hex]. rewrite Hex, Hres.
  rewrite (sound_validates w1 Hsound). cbn.
  repeat split; [apply Happ | exact Hsound].
Qed.

(** X3. Appending a block object that is not yet in the chain and has no
    hash to a chain in good order (distinct blocks, each validating, heights
    equal to indices, every back-link the hash before it) resolves with that
    block; the chain, one block longer, is again in good order, and
    [validateChain] resolves with the empty list on it. *)
Theorem addBlock_keeps_good_order (b : ref) (w : World) :
  sound w = true ->
  existsb (Nat.eqb b) (chain (this w)) = false ->
  Block.hash (heap w b) = None ->
  result (_addBlock (VBlock b)) w = Resolved (VBlock b)
  /\ chain (this (exec (_addBlock (VBlock b)) w)) = (chain (this w) ++ [b])%list
  /\ sound (exec (_addBlock (VBlock b)) w) = true
  /\ result validateChain (exec (_addBlock (VBlock b)) w) = Resolved [].
Proof.
  intros Hs Hb Hh.
  destruct (addBlock_sound_step b w Hs Hb Hh) as (Hres & Hchain & Hsound).
  repeat split; try assumption.
  pose proof (validateChain_run (exec (_addBlock (VBlock b)) w)) as Hv.
  apply run_eq in Hv as [-> _].
  now rewrite (sound_validates _ Hsound).
Qed.

(** X4. Whatever the outcome, [_addBlock] on a chain that ends with block [x]
    leaves the given block with height the old length of the chain, with the
    hash of [x] as back-link, with its payload and owner as they were, with
    the second clock reading in whole seconds as time, and with a hash that
    is the digest of the block serialised with the hash it came with. *)
Theorem addBlock_stamps_the_block
    (b x : ref) (c : list ref) (w : World) (ms : Z) :
  chain (this w) = (c ++ [x])%list ->
  Date_getTime (S (clock w)) = ms ->
  1000 <= ms ->
  let nb := heap (exec (_addBlock (VBlock b)) w) b in
  Block.height nb = Z.of_nat (length (chain (this w)))
  /\ Block.previousBlockHash nb = Block.hash (heap w x)
  /\ Block.body nb = Block.body (heap w b)
  /\ Block.owner nb = Block.owner (heap w b)
  /\ JS.parseInt (Block.time nb) = Some (ms / 1000)
  /\ Block.hash nb
     = Some (SHA256 (JSON_stringify (Block.set_hash (Block.hash (heap w b)) nb))).
Proof.
  intros Hc Hms Hr nb. subst nb.
  destruct (addBlock_sealed b w)
    as (w1 & blk & Hrun & Happ & Hnew & Hhash & Hbody & Hown & Htime & _ & Hlast).
  destruct (Hlast c x Hc) as [Hprev Hht].
  apply run_eq in Hrun as [_ ->]. rewrite Hnew.
  cbn [Block.height Block.previousBlockHash Block.body Block.owner Block.time
       Block.hash Block.set_hash].
  rewrite Hht, Hprev, Hbody, Hown, Htime, Hms.
  destruct (seconds_of_clock ms Hr) as [Hp _]. rewrite Hp.
  repeat split.
  rewrite <- Hhash. destruct blk. reflexivity.
Qed.

(** X5. [_addBlock] changes the chain only by pushing the block it is given
    and changes no other object; a value that is not a block is rejected
    with 'Can add only objects of type Block' and nothing changes. *)
Theorem addBlock_touches_only_its_block (v : Value) (w : World) :
  match v with
  | VBlock b =>
      chain (this (exec (_addBlock v) w)) = (chain (this w) ++ [b])%list
      /\ forall r, r <> b -> heap (exec (_addBlock v) w) r = heap w r
  | _ =>
      run (_addBlock v) w
      = (Rejected (MkError "Can add only objects of type Block"), w)
  end.
Proof.
  destruct v as [|s|b]; try reflexivity.
  destruct (addBlock_shape b w) as (w1 & Hrun & Happ).
  apply run_eq in Hrun as [_ ->]. split; apply Happ.
Qed.

Lemma initializeChain_exec (w : World) :
  height (this w) = -1 ->
  exec initializeChain w
  = exec (_addBlock (VBlock (nextRef w))) (genesis_candidate w).
Proof.
  intros Hh. unfold initializeChain, exec, bind at 1, reading at 1.
  rewrite Hh. cbn [Z.eqb Pos.eqb Z.opp].
  unfold genesis_candidate, exec.
  cbv [bind Block_new modify ret]. cbn [heap nextRef this clock fst snd].
  destruct (_addBlock _ _). reflexivity.
Qed.

Lemma constructor_exec (w : World) :
  exec constructor w
  = exec (_addBlock (VBlock (nextRef w)))
         (genesis_candidate
            (mkWorld (heap w) (nextRef w) (mkBlockchain [] (-1)) (clock w))).
Proof.
  unfold constructor, exec, bind at 1.
  apply (initializeChain_exec
           (mkWorld (heap w) (nextRef w) (mkBlockchain [] (-1)) (clock w))).
  reflexivity.
Qed.

(** X6. [new Blockchain()] always leaves a chain in good order: one block,
    of height 0, with the genesis payload, no back-link, and a hash that
    validates; and [validateChain] resolves with the empty list on it. *)
Theorem constructor_builds_good_order (w : World) :
  let w1 := exec constructor w in
  sound w1 = true
  /\ allocated w1 = true
  /\ map Block.height (blocks w1) = [0]
  /\ map Block.previousBlockHash (blocks w1) = [None]
  /\ result validateChain w1 = Resolved [].
Proof.
  intros w1. subst w1. rewrite constructor_exec.
  set (w0 := mkWorld (heap w) (nextRef w) (mkBlockchain [] (-1)) (clock w)).
  destruct (genesis_candidate_facts w0) as (Ht & Hn & _ & _).
  destruct (addBlock_sealed (nextRef w) (genesis_candidate w0))
    as (w1 & blk & Hrun & Happ & Hnew & Hhash & _ & _ & _ & Hempty & _).
  change (nextRef w0) with (nextRef w) in Hn.
  assert (Hc0 : chain (this (genesis_candidate w0)) = []) by now rewrite Ht.
  destruct (Hempty Hc0) as [Hprev Hht].
  assert (Hcand : Block.hash (heap (genesis_candidate w0) (nextRef w)) = None
                  /\ Block.height (heap (genesis_candidate w0) (nextRef w)) = 0
                  /\ Block.previousBlockHash
                       (heap (genesis_candidate w0) (nextRef w)) = None).
  { unfold genesis_candidate, exec. cbv [bind Block_new modify ret].
    cbn [heap nextRef this clock fst snd]. rewrite !update_same. repeat split. }
  destruct Hcand as (Hh0 & Hht0 & Hp0).
  apply run_eq in Hrun as [_ ->].
  assert (Hchain : chain (this w1) = [nextRef w]).
  { rewrite (app_chain _ _ _ Happ), Hc0. reflexivity. }
  assert (Hblocks : blocks w1 = [heap w1 (nextRef w)]).
  { unfold blocks. now rewrite Hchain. }
  assert (Hsound : sound w1 = true).
  { unfold sound. rewrite Hblocks, Hchain, Hnew.
    cbn [length distinct existsb forallb heights_from linked negb Nat.eqb andb].
    rewrite validate_sealed by congruence.
    cbn [Block.height Block.set_hash]. rewrite Hht, Hht0. reflexivity. }
  split; [exact Hsound|]. split.
  { unfold allocated. rewrite Hchain, (app_nextRef _ _ _ Happ), Hn.
    cbn [forallb]. rewrite andb_true_r. apply Nat.ltb_lt. lia. }
  rewrite Hblocks. cbn [map]. rewrite Hnew.
  cbn [Block.height Block.previousBlockHash Block.set_hash].
  rewrite Hht, Hht0, Hprev, Hp0.
  repeat split.
  pose proof (validateChain_run w1) as Hv. apply run_eq in Hv as [-> _].
  now rewrite (sound_validates w1 Hsound).
Qed.

Lemma claim_candidate_frame (address : string) (star : Star) (w : World) :
  nextRef (claim_candidate address star w) = S (nextRef w)
  /\ Block.hash (heap (claim_candidate address star w) (nextRef w)) = None
  /\ forall r, r <> nextRef w -> heap (claim_candidate address star w) r = heap w r.
Proof.
  unfold claim_candidate, exec.
  cbv [bind now_seconds getTime ret Block_new modify].
  cbn [heap nextRef this clock fst snd].
  repeat split.
  - now rewrite !update_same.
  - intros r Hr. now rewrite !update_other by assumption.
Qed.

Lemma allocated_fresh (w : World) :
  allocated w = true ->
  existsb (Nat.eqb (nextRef w)) (chain (this w)) = false
  /\ forall r, In r (chain (this w)) -> r <> nextRef w.
Proof.
  unfold allocated. intros Ha.
  assert (H : forall r, In r (chain (this w)) -> r <> nextRef w).
  { intros r Hr. apply (proj1 (forallb_forall _ _) Ha) in Hr.
    apply Nat.ltb_lt in Hr. lia. }
  split; [|exact H].
  destruct (existsb _ _) eqn:He; [|reflexivity].
  apply existsb_exists in He as (r & Hr & Heq).
  apply Nat.eqb_eq in Heq. subst. now destruct (H _ Hr).
Qed.

Lemma allocated_grows (w w1 : World) (b : ref) :
  allocated w = true ->
  chain (this w1) = (chain (this w) ++ [b])%list ->
  (b < nextRef w1)%nat -> (nextRef w <= nextRef w1)%nat ->
  allocated w1 = true.
Proof.
  unfold allocated. intros Ha Hc Hb Hn. rewrite Hc, forallb_app.
  cbn [forallb]. rewrite andb_true_r.
  apply andb_true_iff. split; [|apply Nat.ltb_lt; lia].
  apply forallb_forall. intros r Hr.
  apply (proj1 (forallb_forall _ _) Ha) in Hr.
  apply Nat.ltb_lt in Hr. apply Nat.ltb_lt. lia.
Qed.

(** X7. On a chain in good order whose blocks are all allocated, a
    submission that is not stale and whose signature verifies resolves with a
    new block: the chain grows by it, it carries the address as owner and the
    encoded claim as payload, and the chain is in good order again. *)
Theorem submitStar_appends_to_good_order
    (address message signature : string) (star : Star) (w : World) :
  sound w = true ->
  allocated w = true ->
  more_than_5_minutes
    (JS.parseInt (result now_seconds w))
    (JS.parseInt_opt (nth_error (JS.split ":" message) 1)) = false ->
  bitcoinMessage_verify message address signature = Normal true ->
  let w1 := exec (submitStar address message signature star) w in
  result (submitStar address message signature star) w
  = Resolved (VBlock (nextRef w))
  /\ chain (this w1) = (chain (this w) ++ [nextRef w])%list
  /\ Block.owner (heap w1 (nextRef w)) = Some address
  /\ Block.body (heap w1 (nextRef w)) = payload star (Some address)
  /\ sound w1 = true
  /\ allocated w1 = true.
Proof.
  intros Hs Ha Ht Hv w1. subst w1.
  pose proof (submitStar_settles_as_addBlock address message signature star w Ht Hv)
    as Hrun.
  unfold result, exec. unfold run in Hrun. rewrite Hrun.
  fold (result (_addBlock (VBlock (nextRef w))) (claim_candidate address star w)).
  fold (exec (_addBlock (VBlock (nextRef w))) (claim_candidate address star w)).
  destruct (claim_candidate_facts address star w) as (Hthis & Hown & Hbody).
  destruct (claim_candidate_frame address star w) as (Hn & Hh & Hf).
  destruct (allocated_fresh w Ha) as [Hfresh Hne].
  set (wc := claim_candidate address star w) in *.
  assert (Hblocks : blocks wc = blocks w).
  { unfold blocks. rewrite Hthis. apply map_ext_in. intros r Hr.
    apply Hf. now apply Hne. }
  assert (Hsc : sound wc = true).
  { rewrite (sound_same_blocks w wc); [exact Hs | now rewrite Hthis | exact Hblocks]. }
  assert (Hbc : existsb (Nat.eqb (nextRef w)) (chain (this wc)) = false)
    by now rewrite Hthis.
  destruct (addBlock_sound_step (nextRef w) wc Hsc Hbc Hh) as (Hres & Hchain & Hsound).
  destruct (addBlock_shape (nextRef w) wc) as (w1 & Hrun1 & Happ).
  apply run_eq in Hrun1 as [_ Hex]. rewrite Hex in *.
  rewrite Hthis in Hchain.
  split; [exact Hres|]. split; [exact Hchain|].
  split; [now rewrite (app_owner _ _ _ Happ)|].
  split; [now rewrite (app_body _ _ _ Happ)|].
  split; [exact Hsound|].
  apply (allocated_grows w w1 (nextRef w) Ha Hchain);
    rewrite (app_nextRef _ _ _ Happ), Hn; lia.
Qed.

(** X8. Whatever its arguments, [submitStar] on a chain whose blocks are all
    allocated changes no block that is in the chain and removes none: the
    chain afterwards is the chain before, followed by at most the one new
    block. *)
Theorem submitStar_is_append_only
    (address message signature : string) (star : Star) (w : World) :
  allocated w = true ->
  let w1 := exec (submitStar address message signature star) w in
  (chain (this w1) = chain (this w)
   \/ chain (this w1) = (chain (this w) ++ [nextRef w])%list)
  /\ (forall r, In r (chain (this w)) -> heap w1 r = heap w r)
  /\ allocated w1 = true.
Proof.
  intros Ha w1. subst w1.
  pose proof (submitStar_run address message signature star w) as Hrun.
  assert (Hsame : allocated (exec now_seconds w) = true) by exact Ha.
  destruct (more_than_5_minutes _ _).
  { apply run_eq in Hrun as [_ ->]. split; [now left|]. split; [reflexivity|exact Ha]. }
  destruct (bitcoinMessage_verify message address signature) as [[|]|].
  2,3: apply run_eq in Hrun as [_ ->]; split; [now left|];
       split; [reflexivity|exact Ha].
  destruct (addBlock_shape (nextRef w) (claim_candidate address star w))
    as (w1 & Hadd & Happ).
  rewrite Hadd in Hrun. apply run_eq in Hrun as [_ ->].
  destruct (claim_candidate_facts address star w) as (Hthis & _ & _).
  destruct (claim_candidate_frame address star w) as (Hn & _ & Hf).
  destruct (allocated_fresh w Ha) as [_ Hne].
  assert (Hchain : chain (this w1) = (chain (this w) ++ [nextRef w])%list).
  { now rewrite (app_chain _ _ _ Happ), Hthis. }
  split; [now right|]. split.
  - intros r Hr. rewrite (app_frame _ _ _ Happ) by now apply Hne.
    apply Hf. now apply Hne.
  - apply (allocated_grows w w1 (nextRef w) Ha Hchain);
      rewrite (app_nextRef _ _ _ Happ), Hn; lia.
Qed.

End Appending.

(** ** Looking blocks up *)

Lemma head_of_filter {A} (f : A -> bool) (l : list A) :
  nth_error (filter f l) 0 = find f l.
Proof.
  induction l as [|a l IH]; cbn [filter find]; [reflexivity|].
  destruct (f a); [reflexivity | exact IH].
Qed.

(** [find] gives the first element that passes the test. *)
Lemma find_first {A} (f : A -> bool) (l : list A) (x : A) :
  find f l = Some x <->
  exists i, nth_error l i = Some x /\ f x = true
            /\ forall j y, (j < i)%nat -> nth_error l j = Some y -> f y = false.
Proof.
  induction l as [|a l IH]; cbn [find].
  - split; [discriminate|]. intros (i & Hi & _). destruct i; discriminate.
  - destruct (f a) eqn:Ha.
    + split.
      * intros [= <-]. exists 0%nat. repeat split; [exact Ha|]. intros j y Hj. lia.
      * intros (i & Hi & Hx & Hfirst). destruct i as [|i]; [exact Hi|].
        specialize (Hfirst 0%nat a ltac:(lia) eq_refl). congruence.
    + rewrite IH. split.
      * intros (i & Hi & Hx & Hfirst). exists (S i). repeat split; try assumption.
        intros [|j] y Hj Hy; [cbn in Hy; congruence|].
        apply (Hfirst j y); [lia | exact Hy].
      * intros (i & Hi & Hx & Hfirst). destruct i as [|i].
        { cbn in Hi. congruence. }
        exists i. repeat split; try assumption.
        intros j y Hj Hy. apply (Hfirst (S j) y); [lia | exact Hy].
Qed.

Lemma find_by_height (heap : ref -> Block.t) (h : Z) : forall (l : list ref) (k : Z),
  heights_from k (map heap l) = true ->
  find (fun p => Block.height (heap p) =? h) l
  = if (k <=? h) && (h <? k + Z.of_nat (length l))
    then nth_error l (Z.to_nat (h - k)) else None.
Proof.
  induction l as [|a l IH]; intros k Hk.
  - cbn [find length Z.of_nat].
    destruct (Z.leb_spec k h), (Z.ltb_spec h (k + 0)); cbn; try reflexivity; lia.
  - cbn [map heights_from] in Hk. apply andb_true_iff in Hk as [Ha Hk].
    apply Z.eqb_eq in Ha. cbn [find]. rewrite Ha.
    destruct (Z.eqb_spec k h) as [->|Hne].
    + replace (h <=? h) with true by (symmetry; apply Z.leb_le; lia).
      replace (h <? h + Z.of_nat (length (a :: l))) with true
        by (symmetry; apply Z.ltb_lt; cbn [length]; lia).
      now rewrite Z.sub_diag.
    + rewrite (IH (k + 1) Hk). cbn [length]. rewrite Nat2Z.inj_succ.
      destruct (Z.leb_spec (k + 1) h), (Z.leb_spec k h),
               (Z.ltb_spec h (k + 1 + Z.of_nat (length l))),
               (Z.ltb_spec h (k + Z.succ (Z.of_nat (length l))));
        cbn [andb]; try reflexivity; try lia.
      replace (Z.to_nat (h - k)) with (S (Z.to_nat (h - (k + 1)))) by lia.
      reflexivity.
Qed.

Section Looking.

Context {E : Externals}.

Lemma getBlockByHash_find (hash : option string) (w : World) :
  run (getBlockByHash hash) w
  = (Resolved (find (fun p => JS.strict_eq (Block.hash (heap w p)) hash)
                    (chain (this w))), w).
Proof.
  unfold run, getBlockByHash, reading. rewrite head_of_filter.
  now destruct (find _ _).
Qed.

Lemma getBlockByHeight_find (h : Z) (w : World) :
  run (getBlockByHeight h) w
  = (Resolved (find (fun p => Block.height (heap w p) =? h) (chain (this w))), w).
Proof.
  unfold run, getBlockByHeight, reading. rewrite head_of_filter.
  now destruct (find _ _).
Qed.

(** X9. [getBlockByHash] always resolves. It resolves with null exactly when
    no block of the chain has the hash, and otherwise with the first block of
    the chain that has it. *)
Theorem getBlockByHash_finds_the_first (hash : option string) (w : World) :
  (result (getBlockByHash hash) w = Resolved None <->
   forall r, In r (chain (this w)) -> Block.hash (heap w r) <> hash)
  /\ (forall r,
        result (getBlockByHash hash) w = Resolved (Some r) <->
        exists i,
          nth_error (chain (this w)) i = Some r
          /\ Block.hash (heap w r) = hash
          /\ forall j r', (j < i)%nat -> nth_error (chain (this w)) j = Some r' ->
                          Block.hash (heap w r') <> hash)
  /\ exec (getBlockByHash hash) w = w.
Proof.
  pose proof (getBlockByHash_find hash w) as Hrun.
  apply run_eq in Hrun as [-> ->].
  set (f := fun p => JS.strict_eq (Block.hash (heap w p)) hash).
  assert (Hf : forall r, f r = true <-> Block.hash (heap w r) = hash)
    by (intros r; apply strict_eq_true).
  assert (Hnf : forall r, f r = false <-> Block.hash (heap w r) <> hash).
  { intros r. rewrite <- Hf. destruct (f r); split; congruence. }
  split; [|split; [|reflexivity]].
  - split.
    + intros [= Hnone] r Hr. apply Hnf. now apply (find_none f _ Hnone).
    + intros Hall. destruct (find f (chain (this w))) as [r|] eqn:Hfind;
        [|reflexivity].
      apply find_some in Hfind as [Hr Hfr]. apply Hf in Hfr.
      now destruct (Hall r Hr).
  - intros r. split.
    + intros [= Hfind]. apply find_first in Hfind as (i & Hi & Hx & Hfirst).
      exists i. repeat split; [exact Hi | now apply Hf |].
      intros j r' Hj Hr'. apply Hnf. now apply (Hfirst j r').
    + intros (i & Hi & Hx & Hfirst). f_equal. apply find_first.
      exists i. repeat split; [exact Hi | now apply Hf |].
      intros j r' Hj Hr'. apply Hnf. now apply (Hfirst j r').
Qed.

(** X10. After [_addBlock] has been given a block, whatever the outcome,
    [getBlockByHash] with that block's hash finds a block of the chain with
    that hash. *)
Theorem appended_block_is_found_by_hash (b : ref) (w : World) :
  let w1 := exec (_addBlock (VBlock b)) w in
  exists r,
    result (getBlockByHash (Block.hash (heap w1 b))) w1 = Resolved (Some r)
    /\ In r (chain (this w1))
    /\ Block.hash (heap w1 r) = Block.hash (heap w1 b)
    /\ Block.hash (heap w1 b) <> None.
Proof.
  intros w1. subst w1.
  destruct (addBlock_sealed b w) as (w1 & blk & Hrun & Happ & Hnew & _).
  apply run_eq in Hrun as [_ ->].
  pose proof (getBlockByHash_find (Block.hash (heap w1 b)) w1) as Hget.
  apply run_eq in Hget as [-> _].
  destruct (find _ (chain (this w1))) as [r|] eqn:Hfind.
  - apply find_some in Hfind as [Hr Hfr]. apply strict_eq_true in Hfr.
    exists r. repeat split; try assumption.
    rewrite Hnew. discriminate.
  - exfalso.
    assert (Hin : In b (chain (this w1))).
    { rewrite (app_chain _ _ _ Happ). apply in_or_app. right. now left. }
    pose proof (find_none _ _ Hfind b Hin) as Hb. cbn in Hb.
    now rewrite strict_eq_refl in Hb.
Qed.

(** X11. On a chain whose blocks have their indices as heights,
    [getBlockByHeight] resolves with the block at that index for every height
    from 0 to length-1, and with null for any other height. *)
Theorem getBlockByHeight_is_indexing (h : Z) (w : World) :
  heights_from 0 (blocks w) = true ->
  result (getBlockByHeight h) w
  = Resolved (if (0 <=? h) && (h <? Z.of_nat (length (chain (this w))))
              then nth_error (chain (this w)) (Z.to_nat h)
              else None).
Proof.
  intros Hh. pose proof (getBlockByHeight_find h w) as Hrun.
  apply run_eq in Hrun as [-> _].
  rewrite (find_by_height (heap w) h (chain (this w)) 0 Hh).
  now rewrite Z.sub_0_r.
Qed.

(** *** [validateBlock] *)

Lemma same_state_refl (w : World) : same_state w w.
Proof. repeat split. Qed.

Lemma same_state_trans (w1 w2 w3 : World) :
  same_state w1 w2 -> same_state w2 w3 -> same_state w1 w3.
Proof.
  intros (Ht & Hn & Hc & Hh) (Ht' & Hn' & Hc' & Hh').
  repeat split; try congruence; try (intros r; now rewrite Hh', Hh).
Qed.

Lemma set_hash_restore (b : Block.t) :
  Block.set_hash (Block.hash b) (Block.set_hash None b) = b.
Proof. now destruct b. Qed.

Lemma validateBlock_resume_found (block : ref) (w : World) :
  result (validateBlock_resume (Resolved (Some block))) w
  = Resolved (validate (heap w block))
  /\ same_state w (exec (validateBlock_resume (Resolved (Some block))) w).
Proof.
  unfold result, exec, validateBlock_resume.
  cbv [bind ret modify reading load]. cbn [heap nextRef this clock].
  rewrite !update_same. cbn [Block.hash Block.set_hash].
  unfold validate.
  split.
  - destruct (JS.strict_eq _ _); reflexivity.
  - destruct (JS.strict_eq _ _); cbn [snd]; repeat split; cbn [heap];
      intros r; unfold update;
      (destruct (Nat.eqb_spec r block) as [->|_];
       [ apply set_hash_restore | reflexivity ]).
Qed.

Lemma validateBlock_resume_same (found : Promise (option ref)) (w : World) :
  same_state w (exec (validateBlock_resume found) w).
Proof.
  destruct found as [[block|]|e|]; try apply same_state_refl.
  apply validateBlock_resume_found.
Qed.

(** X12. [validateBlock] leaves the ledger and every block as they were: the
    hash it clears is put back. It resolves with whether the first block of
    the given height has as hash the digest of the block serialised with its
    hash cleared, and rejects with a TypeError when no block has that
    height. *)
Theorem validateBlock_checks_and_restores (h : Z) (w : World) :
  same_state w (exec (validateBlock h) w)
  /\ match find (fun p => Block.height (heap w p) =? h) (chain (this w)) with
     | Some block =>
         result (validateBlock h) w
         = Resolved
             (JS.strict_eq
                (Block.hash (heap w block))
                (Some (SHA256 (JSON_stringify
                                 (Block.set_hash None (heap w block))))))
     | None => result (validateBlock h) w = Rejected TypeError_hash_of_null
     end.
Proof.
  pose proof (getBlockByHeight_find h w) as Hget. unfold run in Hget.
  unfold validateBlock, result, exec, bind. rewrite Hget.
  destruct (find _ (chain (this w))) as [block|].
  - destruct (validateBlock_resume_found block w) as [Hres Hsame].
    split; [exact Hsame | exact Hres].
  - split; [apply same_state_refl | reflexivity].
Qed.

(** X13. On a chain in good order, [validateBlock] resolves with true for
    every height from 0 to length-1, and rejects for any other height. *)
Theorem validateBlock_on_good_order (h : Z) (w : World) :
  sound w = true ->
  (0 <= h < Z.of_nat (length (chain (this w))) ->
   result (validateBlock h) w = Resolved true)
  /\ (h < 0 \/ Z.of_nat (length (chain (this w))) <= h ->
      result (validateBlock h) w = Rejected TypeError_hash_of_null).
Proof.
  intros Hs. unfold sound in Hs.
  repeat (apply andb_true_iff in Hs as [Hs ?]).
  pose proof (getBlockByHeight_find h w) as Hget. unfold run in Hget.
  unfold validateBlock, result, bind. rewrite Hget.
  rewrite (find_by_height (heap w) h (chain (this w)) 0) by assumption.
  rewrite Z.sub_0_r. split.
  - intros Hr.
    replace (0 <=? h) with true by (symmetry; apply Z.leb_le; lia).
    replace (h <? 0 + Z.of_nat (length (chain (this w)))) with true
      by (symmetry; apply Z.ltb_lt; lia).
    cbn [andb].
    destruct (nth_error (chain (this w)) (Z.to_nat h)) as [block|] eqn:Hb.
    + destruct (validateBlock_resume_found block w) as [Hres _].
      unfold result in Hres. rewrite Hres. f_equal.
      apply nth_error_In in Hb.
      apply (proj1 (forallb_forall _ _) H1 (heap w block)).
      unfold blocks. now apply in_map.
    + apply nth_error_None in Hb. lia.
  - intros Hr.
    destruct (Z.leb_spec 0 h), (Z.ltb_spec h (0 + Z.of_nat (length (chain (this w)))));
      cbn [andb]; try reflexivity; lia.
Qed.

(** *** [validateChainOld] *)

Lemma validateChainOld_body_spec (w : World) (errorLog : list nat) (i : nat) :
  (i + 1 < length (chain (this w)))%nat ->
  validateChainOld_body w (Some errorLog) i
  = Some (errorLog ++ filter (link_broken w) [i])%list.
Proof.
  intros Hi. unfold validateChainOld_body, truthy, link_broken, blocks.
  cbn [negb filter]. rewrite !nth_error_map.
  destruct (nth_error (chain (this w)) i) as [r|] eqn:Hr.
  2:{ apply nth_error_None in Hr. lia. }
  destruct (nth_error (chain (this w)) (i + 1)) as [r'|] eqn:Hr'.
  2:{ apply nth_error_None in Hr'. lia. }
  cbn [option_map]. destruct (JS.strict_eq _ _); cbn [negb];
    [now rewrite app_nil_r | reflexivity].
Qed.

Lemma validateChainOld_fold (w : World) : forall l errorLog,
  Forall (fun i => i + 1 < length (chain (this w)))%nat l ->
  fold_left (validateChainOld_body w) l (Some errorLog)
  = Some (errorLog ++ filter (link_broken w) l)%list.
Proof.
  induction l as [|i l IH]; intros errorLog Hl.
  - cbn. now rewrite app_nil_r.
  - inversion Hl; subst. cbn [fold_left].
    rewrite validateChainOld_body_spec by assumption.
    rewrite IH by assumption. rewrite <- app_assoc. f_equal.
    change (i :: l) with ([i] ++ l)%list. now rewrite filter_app.
Qed.

Lemma resumes_same_state (started : list (Promise (option ref))) : forall w,
  same_state w
    (fold_left (fun w' found => exec (validateBlock_resume found) w') started w).
Proof.
  induction started as [|found started IH]; intros w; cbn [fold_left].
  - apply same_state_refl.
  - eapply same_state_trans; [apply validateBlock_resume_same | apply IH].
Qed.

Lemma linked_no_broken_link (w : World) (i : nat) :
  linked (blocks w) = true -> link_broken w i = false.
Proof.
  intros Hl. unfold link_broken.
  destruct (nth_error (blocks w) i) as [b|] eqn:Hb; [|reflexivity].
  destruct (nth_error (blocks w) (i + 1)) as [b'|] eqn:Hb'; [|reflexivity].
  rewrite (linked_spec (blocks w) Hl i b b' Hb Hb'). now rewrite strict_eq_refl.
Qed.

(** X14. [validateChainOld] always resolves, with the indices from 0 to
    length-2 whose link to the next block is broken, in order and once each,
    and leaves the ledger and every block as they were. It never reports a
    block for its own hash: on a chain whose links are intact it resolves
    with the empty list, whatever the blocks contain. *)
Theorem validateChainOld_checks_links_only (w : World) :
  result validateChainOld w
  = Resolved (filter (link_broken w) (seq 0 (length (chain (this w)) - 1)))
  /\ same_state w (exec validateChainOld w)
  /\ (linked (blocks w) = true -> result validateChainOld w = Resolved []).
Proof.
  assert (Hres : result validateChainOld w
                 = Resolved (filter (link_broken w)
                                    (seq 0 (length (chain (this w)) - 1)))).
  { unfold result, validateChainOld. cbn [fst].
    rewrite validateChainOld_fold; [reflexivity|].
    apply Forall_forall. intros i Hi. apply in_seq in Hi. lia. }
  split; [exact Hres|]. split.
  - unfold exec, validateChainOld. cbn [snd]. apply resumes_same_state.
  - intros Hl. rewrite Hres. clear Hres. f_equal.
    induction (seq 0 (length (chain (this w)) - 1)) as [|i l IH]; [reflexivity|].
    cbn [filter]. rewrite (linked_no_broken_link w i Hl). exact IH.
Qed.

(** *** [getStarsByWalletAddress] and [validateChain] *)

(** X15. [getStarsByWalletAddress] resolves with null exactly when no block
    of the chain has the address as owner, and otherwise with the decoded
    payloads of the blocks the address owns, in the order of the chain; it
    changes nothing. *)
Theorem getStarsByWalletAddress_lists_owned_blocks (address : string) (w : World) :
  let owned :=
    filter (fun p => JS.strict_eq (Block.owner (heap w p)) (Some address))
           (chain (this w)) in
  result (getStarsByWalletAddress address) w
  = match owned with
    | [] => Resolved None
    | _ => Resolved (Some (map (fun p => Hex.hex2ascii (Block.body (heap w p)))
                               owned))
    end
  /\ (result (getStarsByWalletAddress address) w = Resolved None <->
      forall r, In r (chain (this w)) -> Block.owner (heap w r) <> Some address)
  /\ exec (getStarsByWalletAddress address) w = w.
Proof.
  intros owned.
  assert (Hres : result (getStarsByWalletAddress address) w
                 = match owned with
                   | [] => Resolved None
                   | _ => Resolved
                            (Some (map (fun p => Hex.hex2ascii (Block.body (heap w p)))
                                       owned))
                   end).
  { unfold result, getStarsByWalletAddress, reading. cbn [fst].
    rewrite push_loop_map. cbn [app]. fold owned.
    destruct owned; reflexivity. }
  split; [exact Hres|]. split; [|reflexivity].
  rewrite Hres. subst owned. split.
  - intros Hnone r Hr Hown.
    assert (Hin : In r (filter (fun p => JS.strict_eq (Block.owner (heap w p))
                                                       (Some address))
                               (chain (this w)))).
    { apply filter_In. split; [exact Hr|]. rewrite Hown. apply strict_eq_refl. }
    destruct (filter _ _); [destruct Hin | discriminate].
  - intros Hall.
    destruct (filter _ _) as [|r l] eqn:Hf; [reflexivity|].
    assert (Hin : In r (r :: l)) by now left.
    rewrite <- Hf in Hin. apply filter_In in Hin as [Hr Hown].
    apply strict_eq_true in Hown. now destruct (Hall r Hr).
Qed.

(** X16. [validateChain] resolves with the empty list exactly when every
    block but the last validates and every block's hash is the back-link of
    the next one. *)
Theorem validateChain_empty_iff (w : World) :
  result validateChain w = Resolved [] <->
  forall i b b',
    nth_error (blocks w) i = Some b -> nth_error (blocks w) (i + 1) = Some b' ->
    validate b = true /\ Block.previousBlockHash b' = Block.hash b.
Proof.
  pose proof (validateChain_run w) as Hrun. apply run_eq in Hrun as [-> _].
  split.
  - intros [= Hnil] i b b' Hb Hb'.
    pose proof (validate_chain_spec_count w i) as Hc.
    rewrite Hnil in Hc. cbn in Hc. unfold violations in Hc.
    rewrite Hb, Hb' in Hc.
    destruct (validate b); [|lia].
    destruct (JS.strict_eq (Block.hash b) (Block.previousBlockHash b')) eqn:Hl;
      [|lia].
    apply strict_eq_true in Hl. now split.
  - intros Hall. f_equal.
    destruct (validate_chain_spec w) as [|i l] eqn:Hs; [reflexivity|].
    pose proof (validate_chain_spec_count w i) as Hc.
    rewrite Hs in Hc. cbn in Hc.
    destruct (Nat.eq_dec i i); [|contradiction].
    unfold violations in Hc.
    destruct (nth_error (blocks w) i) as [b|] eqn:Hb; [|discriminate].
    destruct (nth_error (blocks w) (i + 1)) as [b'|] eqn:Hb'; [|discriminate].
    destruct (Hall i b b' Hb Hb') as [Hv Hl].
    rewrite Hv, Hl, strict_eq_refl in Hc. discriminate.
Qed.

(** X17. A new block with no hash, appended to a chain in good order, is
    the block [getBlockByHeight] then resolves with for the old length of
    the chain. *)
Theorem appended_block_is_found_by_height (b : ref) (w : World) :
  sound w = true ->
  existsb (Nat.eqb b) (chain (this w)) = false ->
  Block.hash (heap w b) = None ->
  result (getBlockByHeight (Z.of_nat (length (chain (this w)))))
         (exec (_addBlock (VBlock b)) w)
  = Resolved (Some b).
Proof.
  intros Hs Hb Hh.
  destruct (addBlock_sound_step b w Hs Hb Hh) as (_ & Hchain & Hsound).
  set (w1 := exec (_addBlock (VBlock b)) w) in *.
  unfold sound in Hsound.
  repeat (apply andb_true_iff in Hsound as [Hsound ?]).
  pose proof (getBlockByHeight_find (Z.of_nat (length (chain (this w)))) w1) as Hget.
  apply run_eq in Hget as [-> _].
  rewrite (find_by_height (heap w1) _ (chain (this w1)) 0) by assumption.
  rewrite Hchain, length_app. cbn [length].
  replace (0 <=? Z.of_nat (length (chain (this w)))) with true
    by (symmetry; apply Z.leb_le; lia).
  replace (Z.of_nat (length (chain (this w)))
           <? 0 + Z.of_nat (length (chain (this w)) + 1)) with true
    by (symmetry; apply Z.ltb_lt; lia).
  cbn [andb]. rewrite Z.sub_0_r, Nat2Z.id.
  rewrite nth_error_app2 by lia. now rewrite Nat.sub_diag.
Qed.

(** X18. [validateChain] does not look at the last block of the chain but
    for its back-link: two ledgers whose blocks differ only in the last one,
    with the same back-link, get the same result. *)
Theorem validateChain_skips_the_last_block
    (w w' : World) (bs : list Block.t) (b b' : Block.t) :
  blocks w = (bs ++ [b])%list ->
  blocks w' = (bs ++ [b'])%list ->
  Block.previousBlockHash b' = Block.previousBlockHash b ->
  result validateChain w' = result validateChain w.
Proof.
  intros Hw Hw' Hp.
  pose proof (validateChain_run w) as Hr. apply run_eq in Hr as [-> _].
  pose proof (validateChain_run w') as Hr'. apply run_eq in Hr' as [-> _].
  f_equal. exact (validateChain_ignores_last_block w w' bs b b' Hw Hw' Hp).
Qed.

End Looking.

(** * The claims on explicit inputs *)

#[local] Existing Instance Sample.externals.

(** C4. The specification says that altering any stored field of any one
    block makes that block's index appear in the result of [validateChain].
    The last block of the chain is never validated: after the payload of
    block 1 of a two-block chain has been replaced, [validateChain] still
    resolves with the empty list, as it did before. *)
Theorem tampered_last_block_is_not_reported :
  result validateChain Sample.one_added = Resolved []
  /\ map Block.body (blocks Sample.one_added)
     = [payload GenesisStar None; payload Sample.first_block None]
  /\ map Block.body (blocks Sample.last_tampered)
     = [payload GenesisStar None; "00"]
  /\ result validateChain Sample.last_tampered = Resolved [].
Proof. vm_compute. repeat split. Qed.

(** C5, on an input: a challenge 403 seconds old with its valid signature is
    rejected as stale; a recent challenge with a forged signature is
    rejected; neither changes the chain. *)
Lemma submitStar_rejects_stale_and_unsigned_witness :
  (result (submitStar "addr" Sample.stale (Sample.signed Sample.stale)
                      Sample.sirius) Sample.fresh
   = Rejected (MkError "More than 5 mins elapsed since the signing of the message")
   /\ this (exec (submitStar "addr" Sample.stale (Sample.signed Sample.stale)
                             Sample.sirius) Sample.fresh)
      = this Sample.fresh
   /\ heap (exec (submitStar "addr" Sample.stale (Sample.signed Sample.stale)
                             Sample.sirius) Sample.fresh)
      = heap Sample.fresh)
  /\ ((exists e,
         result (submitStar "addr" Sample.recent "forged" Sample.sirius)
                Sample.fresh = Rejected e)
      /\ this (exec (submitStar "addr" Sample.recent "forged" Sample.sirius)
                    Sample.fresh) = this Sample.fresh
      /\ heap (exec (submitStar "addr" Sample.recent "forged" Sample.sirius)
                    Sample.fresh) = heap Sample.fresh).
Proof.
  split.
  - apply (proj1 (submitStar_rejects_stale_and_unsigned
                    "addr" Sample.stale (Sample.signed Sample.stale)
                    Sample.sirius Sample.fresh)
                 1612847403 1612847000).
    + vm_compute. reflexivity.
    + vm_compute. reflexivity.
    + lia.
  - apply (proj2 (submitStar_rejects_stale_and_unsigned
                    "addr" Sample.recent "forged" Sample.sirius Sample.fresh)).
    left. vm_compute. reflexivity.
Defined.



(** C7. The specification says that every failure of steps 1 to 4, also one
    arising in the final append, reaches the caller as the one generic error.
    In the code the promise of [_addBlock] is handed to [resolve] without
    being awaited, so the [catch] around it never sees its rejection: on a
    chain whose block 1 does not validate, a recent and correctly signed claim
    is appended, the validation that follows fails, and [submitStar] rejects
    with 'Blockchain validation failed ', not with 'Error while adding the
    block to chain'. *)
Lemma submitStar_surfaces_the_append_error :
  result (submitStar "addr" Sample.recent (Sample.signed Sample.recent)
                     Sample.sirius) Sample.prehashed_added
  = Rejected (MkError "Blockchain validation failed ")
  /\ result (submitStar "addr" Sample.recent (Sample.signed Sample.recent)
                        Sample.sirius) Sample.prehashed_added
     <> Rejected (MkError "Error while adding the block to chain")
  /\ chain (this (exec (submitStar "addr" Sample.recent (Sample.signed Sample.recent)
                                   Sample.sirius) Sample.prehashed_added))
     = [0%nat; 1%nat; 2%nat].
Proof.
  vm_compute. repeat split. intros H. discriminate H.
Qed.

(** The wrapping on an input: an empty signature makes the check throw. *)
Lemma submitStar_surfaces_errors_witness :
  result (submitStar "addr" Sample.recent "" Sample.sirius) Sample.fresh
  = Rejected (MkError "Error while adding the block to chain")
  /\ this (exec (submitStar "addr" Sample.recent "" Sample.sirius) Sample.fresh)
     = this Sample.fresh
  /\ heap (exec (submitStar "addr" Sample.recent "" Sample.sirius) Sample.fresh)
     = heap Sample.fresh.
Proof.
  apply (submitStar_surfaces_errors
           "addr" Sample.recent "" Sample.sirius Sample.fresh).
  - vm_compute. reflexivity.
  - vm_compute. reflexivity.
Defined.

(** C8, on an input: block 1 of the chain does not validate; appending block
    2 is rejected, and block 2 is in the chain. *)
Lemma addBlock_rejects_and_keeps_block_witness :
  result (_addBlock (VBlock 2%nat)) Sample.with_candidate
  = Rejected (MkError "Blockchain validation failed ")
  /\ chain (this (exec (_addBlock (VBlock 2%nat)) Sample.with_candidate))
     = (chain (this Sample.with_candidate) ++ [2%nat])%list.
Proof.
  apply (addBlock_rejects_and_keeps_block 2%nat Sample.with_candidate [1%nat]).
  - vm_compute. reflexivity.
  - simpl. lia.
Defined.

(** One block object appended twice is one shared object in two places of
    the chain: the second append overwrites the back-link, height and hash of
    the first, the validation reports index 0 once and index 1 twice, and the
    append is rejected with the chain left at three entries. *)
Example appending_one_block_twice :
  result (_addBlock (VBlock 1%nat)) Sample.one_added
  = Rejected (MkError "Blockchain validation failed ")
  /\ chain (this (exec (_addBlock (VBlock 1%nat)) Sample.one_added))
     = [0%nat; 1%nat; 1%nat]
  /\ map Block.height (blocks (exec (_addBlock (VBlock 1%nat)) Sample.one_added))
     = [0; 2; 2]
  /\ result validateChain (exec (_addBlock (VBlock 1%nat)) Sample.one_added)
     = Resolved [0%nat; 1%nat; 1%nat].
Proof. vm_compute. repeat split. Qed.

(** C9, on the blocks of the test suite: the payload 'Genesis Block' at
    height 0 and at height 1. *)
Lemma getBData_genesis_and_others_witness :
  getBData (Block.mk None 0 (Hex.ascii2hex "Genesis Block") "0" None None)
  = Rejected (MkError "Can not return data for Genesis Block")
  /\ getBData (Block.mk None 1 (Hex.ascii2hex "Genesis Block") "0" None None)
     = Resolved "Genesis Block".
Proof.
  split.
  - apply (proj1 (getBData_genesis_and_others
                    (Block.mk None 0 (Hex.ascii2hex "Genesis Block") "0" None None))).
    reflexivity.
  - apply (proj2 (getBData_genesis_and_others
                    (Block.mk None 1 (Hex.ascii2hex "Genesis Block") "0" None None))).
    + simpl. lia.
    + reflexivity.
Defined.

(** C10, on an input: a recent, correctly signed claim for 'Sirius'. *)
Lemma submitted_star_is_listed_witness :
  exists stars,
    result (getStarsByWalletAddress "addr")
           (exec (submitStar "addr" Sample.recent (Sample.signed Sample.recent)
                             Sample.sirius) Sample.fresh)
    = Resolved (Some stars)
    /\ In (Hex.hex2ascii (payload Sample.sirius (Some "addr"))) stars.
Proof.
  apply (submitted_star_is_listed
           "addr" Sample.recent (Sample.signed Sample.recent) Sample.sirius
           Sample.fresh (VBlock 1%nat)).
  vm_compute. reflexivity.
Defined.

(** * The further properties on explicit inputs *)

(** X1, on an input: the challenge for ["addr"] at the clock reading
    1612847403002. *)
Lemma challenge_carries_the_time_witness :
  exists message,
    result (requestMessageOwnershipVerification "addr") Sample.fresh
    = Resolved message
    /\ nth_error (JS.split ":" message) 0 = Some "addr"
    /\ JS.parseInt_opt (nth_error (JS.split ":" message) 1)
       = Some (1612847403002 / 1000)
    /\ this (exec (requestMessageOwnershipVerification "addr") Sample.fresh)
       = this Sample.fresh
    /\ heap (exec (requestMessageOwnershipVerification "addr") Sample.fresh)
       = heap Sample.fresh.
Proof.
  apply (challenge_carries_the_time (E := Sample.externals) "addr" Sample.fresh 1612847403002).
  - reflexivity.
  - vm_compute. reflexivity.
  - lia.
Defined.


(** X3, on an input: a new block appended to the chain of [Sample.fresh]. *)
Lemma addBlock_keeps_good_order_witness :
  result (_addBlock (VBlock 1%nat)) Later.with_new_block = Resolved (VBlock 1%nat)
  /\ chain (this (exec (_addBlock (VBlock 1%nat)) Later.with_new_block))
     = (chain (this Later.with_new_block) ++ [1%nat])%list
  /\ sound (exec (_addBlock (VBlock 1%nat)) Later.with_new_block) = true
  /\ result validateChain (exec (_addBlock (VBlock 1%nat)) Later.with_new_block)
     = Resolved [].
Proof.
  apply (addBlock_keeps_good_order (E := Sample.externals) 1%nat Later.with_new_block).
  - vm_compute. reflexivity.
  - vm_compute. reflexivity.
  - vm_compute. reflexivity.
Defined.

(** X4, on the same input. *)
Lemma addBlock_stamps_the_block_witness :
  Block.height (heap (exec (_addBlock (VBlock 1%nat)) Later.with_new_block) 1%nat)
  = Z.of_nat (length (chain (this Later.with_new_block)))
  /\ Block.previousBlockHash
       (heap (exec (_addBlock (VBlock 1%nat)) Later.with_new_block) 1%nat)
     = Block.hash (heap Later.with_new_block 0%nat)
  /\ Block.body (heap (exec (_addBlock (VBlock 1%nat)) Later.with_new_block) 1%nat)
     = Block.body (heap Later.with_new_block 1%nat)
  /\ Block.owner (heap (exec (_addBlock (VBlock 1%nat)) Later.with_new_block) 1%nat)
     = Block.owner (heap Later.with_new_block 1%nat)
  /\ JS.parseInt
       (Block.time (heap (exec (_addBlock (VBlock 1%nat)) Later.with_new_block) 1%nat))
     = Some (1612847403003 / 1000)
  /\ Block.hash (heap (exec (_addBlock (VBlock 1%nat)) Later.with_new_block) 1%nat)
     = Some (SHA256 (JSON_stringify
                       (Block.set_hash
                          (Block.hash (heap Later.with_new_block 1%nat))
                          (heap (exec (_addBlock (VBlock 1%nat))
                                      Later.with_new_block) 1%nat)))).
Proof.
  apply (addBlock_stamps_the_block (E := Sample.externals) 1%nat 0%nat [] Later.with_new_block
                                   1612847403003).
  - vm_compute. reflexivity.
  - vm_compute. reflexivity.
  - lia.
Defined.

(** X7, on an input: a recent, correctly signed claim on [Sample.fresh]. *)
Lemma submitStar_appends_to_good_order_witness :
  result (submitStar "addr" Sample.recent (Sample.signed Sample.recent)
                     Sample.sirius) Sample.fresh
  = Resolved (VBlock (nextRef Sample.fresh))
  /\ chain (this (exec (submitStar "addr" Sample.recent (Sample.signed Sample.recent)
                                   Sample.sirius) Sample.fresh))
     = (chain (this Sample.fresh) ++ [nextRef Sample.fresh])%list
  /\ Block.owner (heap (exec (submitStar "addr" Sample.recent
                                         (Sample.signed Sample.recent)
                                         Sample.sirius) Sample.fresh)
                       (nextRef Sample.fresh)) = Some "addr"
  /\ Block.body (heap (exec (submitStar "addr" Sample.recent
                                        (Sample.signed Sample.recent)
                                        Sample.sirius) Sample.fresh)
                      (nextRef Sample.fresh))
     = payload Sample.sirius (Some "addr")
  /\ sound (exec (submitStar "addr" Sample.recent (Sample.signed Sample.recent)
                             Sample.sirius) Sample.fresh) = true
  /\ allocated (exec (submitStar "addr" Sample.recent (Sample.signed Sample.recent)
                                 Sample.sirius) Sample.fresh) = true.
Proof.
  apply (submitStar_appends_to_good_order (E := Sample.externals)
           "addr" Sample.recent (Sample.signed Sample.recent) Sample.sirius
           Sample.fresh).
  - vm_compute. reflexivity.
  - vm_compute. reflexivity.
  - vm_compute. reflexivity.
  - vm_compute. reflexivity.
Defined.

(** X8, on an input: a claim with a forged signature on [Sample.fresh]. *)
Lemma submitStar_is_append_only_witness :
  (chain (this (exec (submitStar "addr" Sample.recent "forged" Sample.sirius)
                     Sample.fresh)) = chain (this Sample.fresh)
   \/ chain (this (exec (submitStar "addr" Sample.recent "forged" Sample.sirius)
                        Sample.fresh))
      = (chain (this Sample.fresh) ++ [nextRef Sample.fresh])%list)
  /\ (forall r, In r (chain (this Sample.fresh)) ->
                heap (exec (submitStar "addr" Sample.recent "forged" Sample.sirius)
                           Sample.fresh) r = heap Sample.fresh r)
  /\ allocated (exec (submitStar "addr" Sample.recent "forged" Sample.sirius)
                     Sample.fresh) = true.
Proof.
  apply (submitStar_is_append_only (E := Sample.externals)
           "addr" Sample.recent "forged" Sample.sirius Sample.fresh).
  vm_compute. reflexivity.
Defined.

(** X11, on an input: height 1 in the two-block chain of [Sample.one_added]. *)
Lemma getBlockByHeight_is_indexing_witness :
  result (getBlockByHeight 1) Sample.one_added
  = Resolved (if (0 <=? 1) && (1 <? Z.of_nat (length (chain (this Sample.one_added))))
              then nth_error (chain (this Sample.one_added)) (Z.to_nat 1)
              else None).
Proof.
  apply (getBlockByHeight_is_indexing 1 Sample.one_added).
  vm_compute. reflexivity.
Defined.

(** X13, on inputs: heights 1 and 5 in the chain of [Sample.one_added]. *)
Lemma validateBlock_on_good_order_witness :
  result (validateBlock 1) Sample.one_added = Resolved true
  /\ result (validateBlock 5) Sample.one_added = Rejected TypeError_hash_of_null.
Proof.
  split.
  - apply (proj1 (validateBlock_on_good_order (E := Sample.externals) 1 Sample.one_added
                    ltac:(vm_compute; reflexivity))).
    vm_compute. split; [discriminate | reflexivity].
  - apply (proj2 (validateBlock_on_good_order (E := Sample.externals) 5 Sample.one_added
                    ltac:(vm_compute; reflexivity))).
    right. vm_compute. discriminate.
Defined.

(** X17, on an input: the new block of [Later.with_new_block]. *)
Lemma appended_block_is_found_by_height_witness :
  result (getBlockByHeight (Z.of_nat (length (chain (this Later.with_new_block)))))
         (exec (_addBlock (VBlock 1%nat)) Later.with_new_block)
  = Resolved (Some 1%nat).
Proof.
  apply (appended_block_is_found_by_height (E := Sample.externals)
           1%nat Later.with_new_block).
  - vm_compute. reflexivity.
  - vm_compute. reflexivity.
  - vm_compute. reflexivity.
Defined.

(** X18, on an input: the chain of [Sample.one_added] and the same chain with
    the payload of its last block replaced. *)
Lemma validateChain_skips_the_last_block_witness :
  result validateChain Sample.last_tampered = result validateChain Sample.one_added.
Proof.
  apply (validateChain_skips_the_last_block (E := Sample.externals)
           Sample.one_added Sample.last_tampered
           [heap Sample.one_added 0%nat]
           (heap Sample.one_added 1%nat) (heap Sample.last_tampered 1%nat)).
  - vm_compute. reflexivity.
  - vm_compute. reflexivity.
  - vm_compute. reflexivity.
Defined.

(** The no-break space is white space to [parseInt]: a time field that begins
    with one is read as the number behind it, and a challenge with such a
    field, 403 seconds old, is rejected as stale whatever its signature. *)
Example stale_challenge_behind_no_break_space :
  JS.parseInt (String (ascii_of_nat 160) "1612847000") = Some 1612847000
  /\ result (submitStar "addr"
                        ("addr:" ++ String (ascii_of_nat 160)
                                           "1612847000:starRegistry")
                        "forged" Sample.sirius) Sample.fresh
     = Rejected (MkError "More than 5 mins elapsed since the signing of the message")
  /\ result (submitStar "addr"
                        ("addr:" ++ String (ascii_of_nat 160)
                                           "1612847000:starRegistry")
                        (Sample.signed
                           ("addr:" ++ String (ascii_of_nat 160)
                                              "1612847000:starRegistry"))
                        Sample.sirius) Sample.fresh
     = Rejected (MkError "More than 5 mins elapsed since the signing of the message").
Proof. vm_compute. repeat split. Qed.
